(** * WaveToy-MPI: a two-rank finite-difference wave solver and its
      reduction test utility.

    The development embeds [src/wavetoy_mpi_comm_basic.c] and
    [beta/wavetoy_testreduce.c].  C [int] values are integers of [Z] whose
    32-bit range is written out, C [double] values are the binary64 numbers
    of [PrimFloat], the heap blocks obtained from [malloc] are lists of
    [int] cells, and the two MPI ranks are a pair of states advanced
    together. *)

From Stdlib Require Import ZArith Lia Bool.
From Stdlib Require Import Floats.PrimFloat Floats.SpecFloat Floats.FloatOps
  Floats.FloatAxioms.
From Stdlib Require Numbers.Cyclic.Int63.Uint63.
From stdpp Require Import base list.

Open Scope Z_scope.

(** Decimal constants of the source such as [0.01] denote the nearest
    binary64 number, as they do in C. *)
Set Warnings "-inexact-float".

(** ** C scalars *)

Module CInt.

Definition INT_MIN : Z := - 2 ^ 31.
Definition INT_MAX : Z := 2 ^ 31 - 1.

Definition in_range (z : Z) : bool := (INT_MIN <=? z) && (z <=? INT_MAX).

(** Two's-complement wrap-around of [int] arithmetic. *)
Definition wrap (z : Z) : Z := (z + 2 ^ 31) mod 2 ^ 32 - 2 ^ 31.

(** [a / b] of C on [int]: the quotient truncated toward zero; [None]
    where C leaves the division undefined. *)
Definition div (a b : Z) : option Z :=
  if b =? 0 then None
  else if (a =? INT_MIN) && (b =? -1) then None
  else Some (Z.quot a b).

End CInt.

Module CDouble.

(** [(double) z] for an [int] [z]: exact, an [int] has at most 31
    significant bits. *)
Definition of_int (z : Z) : float :=
  if z <? 0 then PrimFloat.opp (PrimFloat.of_uint63 (Uint63.of_Z (- z)))
  else PrimFloat.of_uint63 (Uint63.of_Z z).

(** The integer part of a finite binary64 number, fraction discarded. *)
Definition trunc_sf (f : spec_float) : option Z :=
  match f with
  | S754_zero _ => Some 0
  | S754_finite s m e =>
      let a := if 0 <=? e then Z.shiftl (Z.pos m) e
               else Z.shiftr (Z.pos m) (- e) in
      Some (if s then - a else a)
  | S754_infinity _ | S754_nan => None
  end.

Definition trunc (f : float) : option Z := trunc_sf (Prim2SF f).

(** The conversion C applies when a [double] is assigned to an [int]
    object: truncation toward zero.  For a NaN, an infinity or a value
    outside the range of [int] C leaves the result undefined; the model
    takes the value x86-64's [cvttsd2si] delivers there. *)
Definition to_int (f : float) : Z :=
  match trunc f with
  | Some z => if CInt.in_range z then z else CInt.INT_MIN
  | None => CInt.INT_MIN
  end.

End CDouble.

(** Object sizes of the LP64 data model, in bytes. *)
Module Abi.

Definition sizeof_int : Z := 4.
Definition sizeof_double : Z := 8.
Definition sizeof_ptr : Z := 8.

End Abi.

(** [for (i = lo; i <= hi; i++) body], as a fold over [lo..hi]. *)
Definition for_loop {A : Type} (lo hi : Z) (body : Z -> A -> A) (s : A) : A :=
  foldl (fun s i => body i s) s (seqZ lo (hi + 1 - lo)).

(** ** Domain decomposition (lines 38 to 75 of the solver) *)

Module Decomp.

Section Params.
(** [nx] and [ny] are the [#define]d point counts; [nprocs] and [worker]
    are what [MPI_Comm_size] and [MPI_Comm_rank] return. *)
Variables (nx ny nprocs worker : Z).

Definition nxprocs : Z := nprocs.
Definition nyprocs : Z := 1.

Definition nxnom : Z := Z.quot nx nxprocs.
Definition nynom : Z := Z.quot ny nyprocs.

Definition gixs : Z := worker * nxnom + 1.
Definition gixe : Z := gixs + nxnom - 1.
Definition giys : Z := 1.
Definition giye : Z := ny.

Definition ixs : Z := 0.
Definition ixe : Z := nxnom + 1.
Definition iys : Z := 0.
Definition iye : Z := nynom + 1.

Definition ixem : Z := ixe - 1.
Definition iyem : Z := iye - 1.

Definition gnx : Z := ixe - ixs + 1.
Definition gny : Z := iye - iys + 1.
Definition gnxgny : Z := gnx * gny.

(** The test of line 100: global column [i] belongs to this worker. *)
Definition owns (i : Z) : bool := (gixs <=? i) && (i <=? gixe).
End Params.

End Decomp.

(** ** Storage (lines 20, 21 and 77 to 90) *)

Module Store.

(** A block returned by [malloc] and used through an [int*]: a list of
    [int] cells.  [malloc] does not initialise it. *)
Abbreviation block := (list Z).

(** Number of [int] cells in a block of [n * sizeof(double* )] bytes. *)
Definition block_cells (n : Z) : Z := n * Abi.sizeof_ptr / Abi.sizeof_int.

(** Number of entries of a row-pointer table: [malloc(gnx * sizeof(double* ))]
    read through an [int**]. *)
Definition table_entries (gnx : Z) : Z := gnx * Abi.sizeof_ptr / Abi.sizeof_ptr.

(** The values [i] takes in [for (i=0; i<=gnx; i++)] of line 86; each one
    indexes the three tables [uold], [ucur] and [unew]. *)
Definition setup_indices (gnx : Z) : list Z := seqZ 0 (gnx + 1).

(** A table access is inside the table. *)
Definition in_table (gnx i : Z) : bool := (0 <=? i) && (i <? table_entries gnx).

(** One store [tbl[i] = v] that reports an access outside the table. *)
Definition table_store (tbl : list Z) (i v : Z) : option (list Z) :=
  if (0 <=? i) && (i <? Z.of_nat (length tbl))
  then Some (<[Z.to_nat i := v]> tbl) else None.

(** The loop of lines 86 to 90 on one table: entry [i] receives the offset
    [i * gny] of [&u1D[i*gny]] inside the block; [None] as soon as a store
    leaves the table. *)
Definition setup_rows (gnx gny : Z) : option (list Z) :=
  foldl (fun t i => t ≫= fun tbl => table_store tbl i (i * gny))
        (Some (replicate (Z.to_nat (table_entries gnx)) 0))
        (setup_indices gnx).

(** Offset of [u[i][j]] in its block: [u[i]] points at cell [i * gny]. *)
Definition cell (gny i j : Z) : Z := i * gny + j.

(** Reading and writing one [int] cell of a block.  Outside the block C
    gives no meaning to the access; here a read yields 0 and a write is
    dropped. *)
Definition rd (b : block) (k : Z) : Z :=
  if k <? 0 then 0 else b !!! Z.to_nat k.

Definition wr (b : block) (k v : Z) : block :=
  if k <? 0 then b else <[Z.to_nat k := v]> b.

(** The three fields of one rank: the blocks [uold1D], [ucur1D], [unew1D]. *)
Record rank_state : Type := RankState {
  uold1D : block;
  ucur1D : block;
  unew1D : block
}.

Inductive buffer : Type := Uold | Ucur | Unew.

Definition get_buf (b : buffer) (st : rank_state) : block :=
  match b with Uold => uold1D st | Ucur => ucur1D st | Unew => unew1D st end.

Definition set_buf (b : buffer) (v : block) (st : rank_state) : rank_state :=
  match b with
  | Uold => RankState v (ucur1D st) (unew1D st)
  | Ucur => RankState (uold1D st) v (unew1D st)
  | Unew => RankState (uold1D st) (ucur1D st) v
  end.

(** [u[i][j] = v] with [v] a [double]: the value is converted to the cell
    type [int]. *)
Definition store (gny : Z) (b : block) (i j : Z) (v : float) : block :=
  wr b (cell gny i j) (CDouble.to_int v).

(** [u[i][j]] read inside a [double] expression. *)
Definition load (gny : Z) (b : block) (i j : Z) : float :=
  CDouble.of_int (rd b (cell gny i j)).

(** A heap whose blocks hold zero everywhere. *)
Definition zero_heap (nx ny : Z) : rank_state :=
  let n := Z.to_nat (block_cells (Decomp.gnxgny nx ny 2)) in
  RankState (replicate n 0) (replicate n 0) (replicate n 0).

End Store.

(** ** The solver, rank by rank *)

Module Solver.

Import Store.

Section Grid.
(** The three [#define]s of the solver and the C library's [exp]. *)
Variables (nx ny nsteps : Z).
Variable cexp : float -> float.

(** Both ranks of the two-process launch the program is written for. *)
Definition nprocs : Z := 2.

Definition nxnom : Z := Decomp.nxnom nx nprocs.
Definition nynom : Z := Decomp.nynom ny.
Definition ixe : Z := Decomp.ixe nx nprocs.
Definition iye : Z := Decomp.iye ny.
Definition ixem : Z := Decomp.ixem nx nprocs.
Definition iyem : Z := Decomp.iyem ny.
Definition gnx : Z := Decomp.gnx nx nprocs.
Definition gny : Z := Decomp.gny ny.

(** Lines 64 to 70. *)
Definition c : float := 1%float.
Definition dt : float := (1 / CDouble.of_int (nsteps - 1))%float.
Definition dx : float := (2 / CDouble.of_int (nx + 1))%float.
Definition dy : float := (2 / CDouble.of_int (ny + 1))%float.
Definition csq : float := (c * c)%float.
Definition dtdx : float := (dt / dx)%float.
Definition dtdxsq : float := (dtdx * dtdx)%float.

(** *** Initializer (lines 93 to 106) *)

Definition xcoord (i : Z) : float :=
  ((- CDouble.of_int (1 + nx + 2 * i)) / CDouble.of_int (1 + nx))%float.

Definition ycoord (j : Z) : float :=
  ((- CDouble.of_int (1 + ny + 2 * j)) / CDouble.of_int (1 + ny))%float.

(** The argument handed to [exp] on line 97. *)
Definition gauss_arg (i j : Z) : float :=
  let x := xcoord i in
  let y := ycoord j in
  ((- x) * x / 0.01 - y * y / 0.01)%float.

Definition gauss (i j : Z) : float := cexp (gauss_arg i j).

Definition init_cell (worker : Z) (i j : Z) (b : block) : block :=
  if Decomp.owns nx nprocs worker i then
    let li := i - Decomp.gixs nx nprocs worker + 1 in
    let lj := j in
    store gny b li lj (gauss i j)
  else b.

Definition Initializer (worker : Z) (st : rank_state) : rank_state :=
  set_buf Uold
    (for_loop 1 nx (fun i => for_loop 1 ny (fun j => init_cell worker i j))
       (uold1D st))
    st.

(** *** BoundaryApplier (lines 133 to 190) *)

(** [uold[i][j] = 0.0; ucur[i][j] = 0.0;] *)
Definition zero_both (i j : Z) (st : rank_state) : rank_state :=
  RankState (store gny (uold1D st) i j 0%float)
            (store gny (ucur1D st) i j 0%float)
            (unew1D st).

Definition BoundaryApplier (worker : Z) (st : rank_state) : rank_state :=
  if worker =? 0 then
    let st := zero_both 0 0 st in
    let st := zero_both 0 iye st in
    let st := zero_both ixe 0 st in
    let st := zero_both ixe iye st in
    let st := for_loop 1 iyem (fun j => zero_both 0 j) st in
    let st := for_loop 1 ixem (fun i => zero_both i 0) st in
    for_loop 1 ixem (fun i => zero_both i iye) st
  else
    let st := zero_both ixe 0 st in
    let st := zero_both ixe iye st in
    let st := zero_both 0 0 st in
    let st := zero_both 0 iye st in
    let st := for_loop 1 iyem (fun j => zero_both ixe j) st in
    let st := for_loop 1 ixem (fun i => zero_both i 0) st in
    for_loop 1 ixem (fun i => zero_both i iye) st.

(** *** TimeStepper: bootstrap (lines 118 to 125) *)

Definition bootstrap_value (uold : block) (i j : Z) : float :=
  let u := load gny uold in
  let dudt := 0%float in
  (u i j - 2 * dt * dudt
   + 0.5 * csq * dtdxsq * (u (i + 1)%Z j - 2 * u i j + u (i - 1)%Z j
                           + u i (j + 1)%Z - 2 * u i j + u i (j - 1)%Z))%float.

Definition bootstrap (st : rank_state) : rank_state :=
  set_buf Ucur
    (for_loop 1 nxnom (fun i => for_loop 1 nynom (fun j ucur =>
       store gny ucur i j (bootstrap_value (uold1D st) i j)))
       (ucur1D st))
    st.

(** *** TimeStepper: the recurrence (lines 205 to 212) *)

(** [2*ucur[i][j] + uold[i][j]] is evaluated on [int] before it meets the
    [double] term. *)
Definition stencil_value (uold ucur : block) (i j : Z) : float :=
  let u := load gny ucur in
  let head :=
    CInt.wrap (CInt.wrap (2 * rd ucur (cell gny i j)) + rd uold (cell gny i j)) in
  (CDouble.of_int head
   + csq * dtdxsq * (u (i + 1)%Z j - 2 * u i j + u (i - 1)%Z j
                     + u i (j + 1)%Z - 2 * u i j + u i (j - 1)%Z))%float.

Definition TimeStepper (st : rank_state) : rank_state :=
  set_buf Unew
    (for_loop 1 nxnom (fun i => for_loop 1 ny (fun j unew =>
       store gny unew i j (stencil_value (uold1D st) (ucur1D st) i j)))
       (unew1D st))
    st.

(** *** Buffer update (lines 214 to 220) *)

Definition update_cell (i j : Z) (st : rank_state) : rank_state :=
  let uold' := wr (uold1D st) (cell gny i j) (rd (ucur1D st) (cell gny i j)) in
  let ucur' := wr (ucur1D st) (cell gny i j) (rd (unew1D st) (cell gny i j)) in
  RankState uold' ucur' (unew1D st).

Definition update (st : rank_state) : rank_state :=
  for_loop 1 nxnom (fun i => for_loop 1 ny (fun j => update_cell i j)) st.

End Grid.

End Solver.

(** ** Message passing between the two ranks *)

Module Mpi.

Import Store.

(** The two blocking calls of the solver, with the block and the cell
    offset their buffer argument [&u[i][0]] designates, the element count,
    the peer rank and the tag.  The datatype is [MPI_DOUBLE] throughout. *)
Inductive op : Type :=
| Send (buf : buffer) (off count dest tag : Z)
| Recv (buf : buffer) (off count source tag : Z).

(** [count] elements of [MPI_DOUBLE] span this many [int] cells. *)
Definition cells_of (count : Z) : nat :=
  Z.to_nat (count * Abi.sizeof_double / Abi.sizeof_int).

(** What a send reads out of the sender's block. *)
Definition payload (b : block) (off count : Z) : list Z :=
  take (cells_of count) (drop (Z.to_nat off) b).

(** What a receive writes into the receiver's block. *)
Definition deliver (b : block) (off : Z) (msg : list Z) : block :=
  list_inserts (Z.to_nat off) msg b.

Definition transfer (sbuf : buffer) (soff count : Z) (sender : rank_state)
    (rbuf : buffer) (roff : Z) (receiver : rank_state) : rank_state :=
  set_buf rbuf
    (deliver (get_buf rbuf receiver) roff
       (payload (get_buf sbuf sender) soff count))
    receiver.

(** Each rank with the calls it still has to make. *)
Record config : Type := Config {
  prog0 : list op;
  st0 : rank_state;
  prog1 : list op;
  st1 : rank_state
}.

(** Synchronous transport: a call completes only together with the
    matching call of the peer (same tag, peer ranks naming each other, the
    message fitting the receive count).  [None] when no pair of pending
    calls matches: both ranks stay blocked. *)
Definition step (c : config) : option config :=
  match prog0 c, prog1 c with
  | Send sb so n dest tag :: p0, Recv rb ro m src tag' :: p1 =>
      if (dest =? 1) && (src =? 0) && (tag =? tag') && (n <=? m)
      then Some (Config p0 (st0 c) p1 (transfer sb so n (st0 c) rb ro (st1 c)))
      else None
  | Recv rb ro m src tag' :: p0, Send sb so n dest tag :: p1 =>
      if (dest =? 0) && (src =? 1) && (tag =? tag') && (n <=? m)
      then Some (Config p0 (transfer sb so n (st1 c) rb ro (st0 c)) p1 (st1 c))
      else None
  | _, _ => None
  end.

Definition finished (c : config) : bool :=
  match prog0 c, prog1 c with
  | [], [] => true
  | _, _ => false
  end.

(** Both ranks run until neither has a call left; [None] when they block
    or the fuel runs out first. *)
Fixpoint run (fuel : nat) (c : config) : option config :=
  if finished c then Some c
  else match fuel with
       | O => None
       | S fuel' =>
           match step c with
           | Some c' => run fuel' c'
           | None => None
           end
       end.

Section Grid.
Variables (nx ny : Z).

(** The calls of one exchange of [buf] (lines 110 to 116, and each half of
    lines 193 to 203), for [worker] 0 and for the other worker. *)
Definition exchange_ops (worker : Z) (buf : buffer) : list op :=
  let gny := Decomp.gny ny in
  let ixe := Decomp.ixe nx 2 in
  let ixem := Decomp.ixem nx 2 in
  if worker =? 0 then
    [ Send buf (cell gny ixem 0) ny 1 0;
      Recv buf (cell gny ixe 0) ny 1 1 ]
  else
    [ Recv buf (cell gny 0 0) ny 0 0;
      Send buf (cell gny 1 0) ny 0 1 ].

(** Lines 193 to 203: [uold], then [ucur]. *)
Definition step_exchange_ops (worker : Z) : list op :=
  exchange_ops worker Uold ++ exchange_ops worker Ucur.

(** The effect of one exchange of [buf] on the two ranks: rank 1 receives
    first, and sends from its block as the receive left it. *)
Definition halo_exchange (buf : buffer) (w : rank_state * rank_state)
    : rank_state * rank_state :=
  let gny := Decomp.gny ny in
  let ixe := Decomp.ixe nx 2 in
  let ixem := Decomp.ixem nx 2 in
  let s1 := transfer buf (cell gny ixem 0) ny (fst w) buf (cell gny 0 0) (snd w) in
  let s0 := transfer buf (cell gny 1 0) ny s1 buf (cell gny ixe 0) (fst w) in
  (s0, s1).

End Grid.

End Mpi.

(** ** The program on both ranks *)

Module TwoRank.

Import Store.

Section Grid.
Variables (nx ny nsteps : Z).
Variable cexp : float -> float.

Definition world : Type := (rank_state * rank_state)%type.

Definition both (f : Z -> rank_state -> rank_state) (w : world) : world :=
  (f 0 (fst w), f 1 (snd w)).

(** Lines 92 to 125: initial data, first exchange of [uold], bootstrap. *)
Definition startup (heap : world) : world :=
  let w := both (Solver.Initializer nx ny cexp) heap in
  let w := Mpi.halo_exchange nx ny Uold w in
  both (fun _ => Solver.bootstrap nx ny nsteps) w.

(** The body of the loop of lines 132 to 221. *)
Definition time_step (w : world) : world :=
  let w := both (Solver.BoundaryApplier nx ny) w in
  let w := Mpi.halo_exchange nx ny Uold w in
  let w := Mpi.halo_exchange nx ny Ucur w in
  let w := both (fun _ => Solver.TimeStepper nx ny nsteps) w in
  both (fun _ => Solver.update nx ny) w.

Definition solve (iterations : nat) (heap : world) : world :=
  Nat.iter iterations time_step (startup heap).

(** [for (k=0; k<=nsteps; k++)]. *)
Definition main (heap : world) : world :=
  solve (Z.to_nat (nsteps + 1)) heap.

(** The field of both ranks read by global column: column [i] of [1..nx]
    lives on the worker that owns it, at local column [i - gixs + 1]. *)
Definition stitched (buf : buffer) (w : world) (i j : Z) : Z :=
  let worker := if Decomp.owns nx 2 0 i then 0 else 1 in
  let st := if worker =? 0 then fst w else snd w in
  rd (get_buf buf st)
     (cell (Decomp.gny ny) (i - Decomp.gixs nx 2 worker + 1) j).

End Grid.

End TwoRank.

(** ** The single-process reference of the serial-equivalence property

    Written from the specification (sections 3, 4.3, 4.5, 4.6 and 8): one
    process holds the whole grid of [(nx+2) x (ny+2)] floating-point
    scalars, seeds the interior with the initial pulse, bootstraps, and
    then repeats boundary application, recurrence and rotation. *)

Module Reference.

Definition field : Type := Z -> Z -> float.

Section Grid.
Variables (nx ny : Z).
(** [csq] and [dtdxsq] as in the solver; [pulse] is the initial value of
    the interior cell with global index [(i, j)]. *)
Variables (csq dtdxsq : float).
Variable pulse : Z -> Z -> float.

Definition interior (i j : Z) : bool :=
  (1 <=? i) && (i <=? nx) && (1 <=? j) && (j <=? ny).

Definition initial : field :=
  fun i j => if interior i j then pulse i j else 0%float.

Definition laplacian (f : field) (i j : Z) : float :=
  ((f (i + 1)%Z j - 2 * f i j + f (i - 1)%Z j)
   + (f i (j + 1)%Z - 2 * f i j + f i (j - 1)%Z))%float.

Definition bootstrap (previous : field) : field :=
  fun i j =>
    if interior i j
    then (previous i j + 0.5 * csq * dtdxsq * laplacian previous i j)%float
    else 0%float.

(** Dirichlet condition: zero on the four physical edges. *)
Definition boundary (f : field) : field :=
  fun i j => if interior i j then f i j else 0%float.

Definition recurrence (previous current : field) : field :=
  fun i j =>
    if interior i j
    then (2 * current i j + previous i j
          + csq * dtdxsq * laplacian current i j)%float
    else 0%float.

(** One step on the pair (previous, current), rotation included. *)
Definition step (w : field * field) : field * field :=
  let previous := boundary (fst w) in
  let current := boundary (snd w) in
  (current, recurrence previous current).

Definition solve (iterations : nat) : field * field :=
  Nat.iter iterations step (initial, bootstrap initial).

End Grid.

End Reference.

(** ** The reduction test utility (lines 29 to 41 of its [main]) *)

Module Reduce.

Inductive outcome : Type :=
| Aborted (errorcode : Z)
| Undefined
| Proceeds (nxprocs nyprocs nxnom nynom : Z).

(** [int] product and sum; [None] on overflow, which C leaves undefined. *)
Definition checked (z : Z) : option Z :=
  if CInt.in_range z then Some z else None.

Section Run.
(** [nx], [ny] come from the command line, [nprocs] from [MPI_Comm_size].
    [nxnom0] and [nynom0] are what the automatic variables [nxnom] and
    [nynom] hold when line 34 reads them: nothing has been assigned to
    them yet. *)
Variables (nx ny nprocs : Z).
Variables (nxnom0 nynom0 : Z).

Definition nxprocs : option Z :=
  a ← checked (nprocs * nx); b ← checked (nx + ny); CInt.div a b.

Definition nyprocs : option Z :=
  a ← checked (nprocs * ny); b ← checked (nx + ny); CInt.div a b.

(** The condition of line 34. *)
Definition guard (nxp nyp : Z) : bool :=
  (nxp =? 0) || (nyp =? 0) || (nxnom0 =? 0) || (nynom0 =? 0).

Definition main : outcome :=
  match nxprocs, nyprocs with
  | Some nxp, Some nyp =>
      if guard nxp nyp then Aborted 1
      else match CInt.div nx nxp, CInt.div ny nyp with
           | Some nxnom, Some nynom => Proceeds nxp nyp nxnom nynom
           | _, _ => Undefined
           end
  | _, _ => Undefined
  end.

End Run.

End Reduce.

(** ** Vocabulary of the statements, and the states they are tried on *)

Module Vocab.

Import Store.

(** The cell [(i, j)] lies inside the blocks [uold1D] and [ucur1D]. *)
Definition allocated (ny : Z) (st : rank_state) (i j : Z) : Prop :=
  0 <= cell (Solver.gny ny) i j < Z.of_nat (length (uold1D st)) /\
  0 <= cell (Solver.gny ny) i j < Z.of_nat (length (ucur1D st)).

(** [st] is [st0] with the cells of [W] set to zero in [uold] and [ucur],
    and nothing else changed. *)
Definition zeroed_on (W : Z -> Prop) (st0 st : rank_state) : Prop :=
  unew1D st = unew1D st0 /\
  length (uold1D st) = length (uold1D st0) /\
  length (ucur1D st) = length (ucur1D st0) /\
  forall k,
    (W k -> rd (uold1D st) k = 0 /\ rd (ucur1D st) k = 0) /\
    (~ W k -> rd (uold1D st) k = rd (uold1D st0) k /\
              rd (ucur1D st) k = rd (ucur1D st0) k).

(** [b] is [b0] with the value [F i j], converted to [int], stored in
    every cell [(i, j)] that satisfies [P], and nothing else changed. *)
Definition filled_on (gny : Z) (F : Z -> Z -> float) (P : Z -> Z -> Prop)
    (b0 b : block) : Prop :=
  length b = length b0 /\
  (forall i j, P i j -> rd b (cell gny i j) = CDouble.to_int (F i j)) /\
  (forall k, (forall i j, P i j -> k <> cell gny i j) -> rd b k = rd b0 k).

(** The cells a boundary application zeroes: the rank's physical edge
    column (column 0 for worker 0, column [ixe] otherwise) and the rows 0
    and [iye] over every column, ghost columns included. *)
Definition on_edge (nx ny worker : Z) (k : Z) : Prop :=
  exists i j,
    k = cell (Solver.gny ny) i j /\
    0 <= i <= Solver.ixe nx /\ 0 <= j <= Solver.iye ny /\
    (i = (if worker =? 0 then 0 else Solver.ixe nx)
     \/ j = 0 \/ j = Solver.iye ny).

(** The value handed back by [exp] lies in [0, 1). *)
Definition in_unit_range (f : float) : Prop :=
  (0 <=? f)%float = true /\ (f <? 1)%float = true.

(** [cexp] maps every argument the initialisation of an [nx] x [ny] grid
    passes to it into [0, 1). *)
Definition exp_in_unit_range (cexp : float -> float) (nx ny : Z) : Prop :=
  forall i j, 1 <= i <= nx -> 1 <= j <= ny ->
              in_unit_range (cexp (Solver.gauss_arg nx ny i j)).

(** What glibc's [exp] returns on the ten distinct arguments the
    initialisation of a 4 x 4 grid passes to it: four results are
    representable, the other six underflow to zero. *)
Definition exp_4x4 (a : float) : float :=
  if (a =? -0x1.87fffffffffffp+8)%float then 0x1.61013a44a9a09p-566%float
  else if (a =? -0x1.04p+9)%float then 0x1.bd4872fa2901fp-751%float
  else if (a =? -0x1.44p+9)%float then 0x1.18d77b8a44ad7p-935%float
  else if (a =? -0x1.54p+9)%float then 0x1.f48cf6261d064p-982%float
  else 0%float.

(** Both ranks of a 4 x 4 grid on a heap that [malloc] handed out zeroed. *)
Definition zero_world : TwoRank.world := (zero_heap 4 4, zero_heap 4 4).

(** Rank 0 of a 4 x 4 grid on a zeroed heap, except that the cell of
    [uold] at the top of the interface column, [uold[ixe][0]], holds 7. *)
Definition corner_marked : rank_state :=
  set_buf Uold
    (wr (uold1D (zero_heap 4 4)) (cell (Solver.gny 4) (Solver.ixe 4) 0) 7)
    (zero_heap 4 4).

(** A rank of a 4 x 4 grid whose cell [k] holds [base + k] in each block. *)
Definition numbered (base : Z) : rank_state :=
  let n := Z.to_nat (block_cells (Decomp.gnxgny 4 4 2)) in
  let b := (fun k => base + Z.of_nat k) <$> seq 0 n in
  RankState b b b.

(** Rank 0 of the grid the source is compiled for (100 x 100 points), on a
    zeroed heap, with [ucur[2][1]] set to 1. *)
Definition unit_pulse : rank_state :=
  set_buf Ucur
    (wr (ucur1D (zero_heap 100 100)) (cell (Solver.gny 100) 2 1) 1)
    (zero_heap 100 100).

End Vocab.

(** ** The patch of the reduction utility (lines 55 to 109) *)

(** The default a total lookup in a block of [double] cells falls back
    on. *)
#[global] Instance float_inhabited : Inhabited float := populate 0%float.

Module Patch.

(** Reading and writing one [double] cell of the block [old1d]; outside
    the block a read yields 0.0 and a write is dropped. *)
Definition rdf (b : list float) (k : Z) : float :=
  if k <? 0 then 0%float else b !!! Z.to_nat k.

Definition wrf (b : list float) (k : Z) (v : float) : list float :=
  if k <? 0 then b else <[Z.to_nat k := v]> b.

Section Run.
(** The processor counts and patch sizes [main] has computed by line 41,
    and the rank of the process. *)
Variables (nxprocs nyprocs nxnom nynom rank : Z).

(** The global indices of lines 56 to 59; the program computes them and
    does not read them afterwards. *)
Definition gixs : Z := Z.quot rank nxprocs * nxnom + 1.
Definition gixe : Z := gixs + nxnom - 1.
Definition giys : Z := Z.rem rank nyprocs * nynom + 1.
Definition giye : Z := giys + nynom - 1.

Definition lixs : Z := 0.
Definition lixe : Z := nxnom + 1.
Definition liys : Z := 0.
Definition liye : Z := nynom + 1.

Definition lixm : Z := lixe - 1.
Definition liym : Z := liye - 1.

Definition tnx : Z := nxnom + 2.
Definition tny : Z := nynom + 2.
Definition tnxtny : Z := tnx * tny.

(** The values [i] takes in [for(i=0; i<tnx; i++)] of line 80. *)
Definition setup_indices : list Z := seqZ 0 tnx.

(** The loop of lines 80 to 82 on the table [old] of [tnx] entries
    ([malloc(tnx*sizeof(double* ))]), entry [i] receiving the offset of
    [&old1d[i*tny]]; [None] as soon as a store leaves the table. *)
Definition setup_rows : option (list Z) :=
  foldl (fun t i => t ≫= fun tbl => Store.table_store tbl i (i * tny))
        (Some (replicate (Z.to_nat (Store.table_entries tnx)) 0))
        setup_indices.

(** Lines 84 to 89: every cell, ghost cells included, receives the rank. *)
Definition fill (old1d : list float) : list float :=
  for_loop 0 lixe (fun i => for_loop 0 liye (fun j b =>
    wrf b (Store.cell tny i j) (CDouble.of_int rank)))
    old1d.

(** Lines 103 to 109: the sum over the cells of the patch proper. *)
Definition local_sum (old1d : list float) : float :=
  for_loop 1 lixm (fun i => for_loop 1 liym (fun j sum =>
    (sum + rdf old1d (Store.cell tny i j))%float))
    0%float.

End Run.

End Patch.

(** ** The calls of a whole run, and more vocabulary *)

Module Terms.

Import Store.

(** The blocking calls a rank of the solver makes from start to end: the
    exchange of [uold] before the bootstrap (lines 110 to 116), then the
    exchanges of lines 193 to 203 in each of the [nsteps + 1] passes of the
    loop of line 132. *)
Definition mpi_calls (nx ny nsteps worker : Z) : list Mpi.op :=
  Mpi.exchange_ops nx ny worker Uold
  ++ concat (replicate (Z.to_nat (nsteps + 1))
               (Mpi.step_exchange_ops nx ny worker)).

(** [st] is [st0] after the buffer update on the cells of [P]: there
    [uold] holds what [ucur] held and [ucur] what [unew] holds; every other
    cell of [uold] and [ucur], and all of [unew], is as in [st0]. *)
Definition rotated_on (gny : Z) (P : Z -> Z -> Prop) (st0 st : rank_state)
    : Prop :=
  unew1D st = unew1D st0 /\
  length (uold1D st) = length (uold1D st0) /\
  length (ucur1D st) = length (ucur1D st0) /\
  (forall i j, P i j ->
     rd (uold1D st) (cell gny i j) = rd (ucur1D st0) (cell gny i j) /\
     rd (ucur1D st) (cell gny i j) = rd (unew1D st0) (cell gny i j)) /\
  (forall k, (forall i j, P i j -> k <> cell gny i j) ->
     rd (uold1D st) k = rd (uold1D st0) k /\
     rd (ucur1D st) k = rd (ucur1D st0) k).

(** The cells of the patch proper of the reduction utility, as offsets in
    [old1d]: rows [1..nxnom], and in each row the columns [1..nynom]. *)
Definition patch_cells (nxnom nynom : Z) : list Z :=
  i ← seqZ 1 nxnom; cell (Patch.tny nynom) i <$> seqZ 1 nynom.

(** [b'] reads as [b] in every cell from offset [n] on. *)
Definition kept_from (n : Z) (b b' : block) : Prop :=
  forall k, n <= k -> rd b' k = rd b k.

(** The same for the three blocks of a rank. *)
Definition tail_kept (n : Z) (st st' : rank_state) : Prop :=
  forall buf, kept_from n (get_buf buf st) (get_buf buf st').

(** A rank of a 4 x 4 grid whose blocks are followed by four more cells;
    cell [k] holds [base + k]. *)
Definition fenced (base : Z) : rank_state :=
  let n := Z.to_nat (block_cells (Decomp.gnxgny 4 4 2) + 4) in
  let b := (fun k => base + Z.of_nat k) <$> seq 0 n in
  RankState b b b.

End Terms.

Import Store Vocab Terms.

Ltac by_evaluation :=
  vm_compute; first [reflexivity | discriminate | intro; discriminate].

Ltac mpi_step :=
  progress (cbn [Mpi.run Mpi.finished Mpi.step Mpi.prog0 Mpi.prog1 Mpi.st0
                 Mpi.st1 Z.eqb andb Pos.eqb fst snd app];
            rewrite ?Z.leb_refl).

(** * Properties *)

(** ** Binary64 numbers below one *)

Lemma digits2_pos_bound (m : positive) : Z.pos m < 2 ^ Z.pos (digits2_pos m).
Proof.
  induction m as [m IH | m IH |]; simpl digits2_pos.
  - rewrite Pos2Z.inj_succ, Z.pow_succ_r by lia. lia.
  - rewrite Pos2Z.inj_succ, Z.pow_succ_r by lia. lia.
  - reflexivity.
Qed.

Lemma shiftr_small (m : positive) (n : Z) :
  0 <= n -> Z.pos m < 2 ^ n -> Z.shiftr (Z.pos m) n = 0.
Proof.
  intros Hn Hm. rewrite Z.shiftr_div_pow2 by assumption.
  apply Z.div_small. lia.
Qed.

Lemma pow2_52 : 2 ^ 52 = 4503599627370496.
Proof. vm_compute. reflexivity. Qed.

(** A positive binary64 number below one has its mantissa below
    [2 ^ (- e)]. *)
Lemma lt_one_small (m : positive) (e : Z) :
  valid_binary (S754_finite false m e) = true ->
  SFltb (S754_finite false m e) (S754_finite false 4503599627370496 (-52)) = true ->
  e < 0 /\ Z.pos m < 2 ^ (- e).
Proof.
  cbv [valid_binary bounded canonical_mantissa fexp emin SFltb SFcompare].
  intros Hv Hlt.
  apply andb_prop in Hv as [Hc _]. apply Z.eqb_eq in Hc.
  pose proof (digits2_pos_bound m) as Hd.
  destruct (e ?= -52) eqn:Hcmp0; try discriminate Hlt.
  - apply Z.compare_eq in Hcmp0.
    assert (Hm : (m < 4503599627370496)%positive).
    { apply Pos.compare_lt_iff.
      destruct (Pos.compare_cont Eq m 4503599627370496) eqn:E;
        [discriminate Hlt | exact E | discriminate Hlt]. }
    apply Pos2Z.pos_lt_pos in Hm.
    clear Hlt Hc Hd. subst e. split; [lia |].
    replace (- -52) with 52 by reflexivity. rewrite pow2_52. exact Hm.
  - rewrite Z.compare_lt_iff in Hcmp0. clear Hlt. split; [lia |].
    assert (Z.pos (digits2_pos m) <= 53) by (unfold prec, emax in Hc; lia).
    eapply Z.lt_le_trans; [exact Hd |].
    apply Z.pow_le_mono_r; lia.
Qed.

(** A [double] in [0, 1) is converted to the [int] 0. *)
Lemma to_int_unit_range (f : float) :
  (0 <=? f)%float = true -> (f <? 1)%float = true -> CDouble.to_int f = 0.
Proof.
  rewrite FloatAxioms.leb_spec, FloatAxioms.ltb_spec.
  pose proof (Prim2SF_valid f) as Hv.
  unfold CDouble.to_int, CDouble.trunc.
  change (Prim2SF 0) with (S754_zero false).
  change (Prim2SF 1) with (S754_finite false 4503599627370496 (-52)).
  destruct (Prim2SF f) as [s | s | | s m e]; intros Hle Hlt.
  - reflexivity.
  - destruct s; discriminate.
  - discriminate.
  - destruct s; [discriminate |].
    destruct (lt_one_small m e Hv Hlt) as [He Hm].
    unfold CDouble.trunc_sf.
    destruct (Z.leb_spec 0 e); [lia |].
    rewrite shiftr_small by (try assumption; lia). reflexivity.
Qed.

Lemma to_int_zero : CDouble.to_int 0%float = 0.
Proof. vm_compute. reflexivity. Qed.

Lemma float_neq (x y : float) : Prim2SF x <> Prim2SF y -> x <> y.
Proof. intros H E. apply H. now rewrite E. Qed.

(** ** Loops *)

Lemma for_loop_empty {A : Type} (lo hi : Z) (body : Z -> A -> A) (s : A) :
  hi < lo -> for_loop lo hi body s = s.
Proof.
  intros H. unfold for_loop.
  replace (seqZ lo (hi + 1 - lo)) with (@nil Z); [reflexivity |].
  symmetry. apply seqZ_nil. lia.
Qed.

Lemma for_loop_last {A : Type} (lo hi : Z) (body : Z -> A -> A) (s : A) :
  lo <= hi ->
  for_loop lo hi body s = body hi (for_loop lo (hi - 1) body s).
Proof.
  intros H. unfold for_loop.
  replace (hi + 1 - lo) with ((hi - 1 + 1 - lo) + 1) by lia.
  rewrite seqZ_app by lia. rewrite foldl_app.
  rewrite (seqZ_cons _ 1) by lia.
  rewrite (seqZ_nil _ (Z.pred 1)) by lia. simpl.
  f_equal. lia.
Qed.

(** An invariant [P i] that holds before the iteration of index [i]
    holds, with index [hi + 1], when the loop is left. *)
Lemma for_loop_invariant {A : Type} (P : Z -> A -> Prop)
    (lo hi : Z) (body : Z -> A -> A) (s : A) :
  lo <= hi + 1 ->
  P lo s ->
  (forall i t, lo <= i <= hi -> P i t -> P (i + 1) (body i t)) ->
  P (hi + 1) (for_loop lo hi body s).
Proof.
  intros Hle H0 Hstep.
  assert (Hgen : forall n : nat,
             Z.of_nat n <= hi + 1 - lo ->
             P (lo + Z.of_nat n) (for_loop lo (lo + Z.of_nat n - 1) body s)).
  { induction n as [| n IH]; intros Hn.
    - rewrite for_loop_empty by lia. now rewrite Z.add_0_r.
    - rewrite for_loop_last by lia.
      replace (lo + Z.of_nat (S n)) with (lo + Z.of_nat n + 1) by lia.
      replace (lo + Z.of_nat n + 1 - 1) with (lo + Z.of_nat n) by lia.
      apply Hstep; [lia |].
      replace (lo + Z.of_nat n) with (lo + Z.of_nat n - 1 + 1) at 2 by lia.
      replace (lo + Z.of_nat n - 1 + 1 - 1) with (lo + Z.of_nat n - 1) by lia.
      apply IH. lia. }
  specialize (Hgen (Z.to_nat (hi + 1 - lo))).
  rewrite Z2Nat.id in Hgen by lia.
  replace (lo + (hi + 1 - lo)) with (hi + 1) in Hgen by lia.
  replace (hi + 1 - 1) with hi in Hgen by lia.
  apply Hgen. lia.
Qed.

(** Loops whose bodies agree on [lo..hi] agree. *)
Lemma for_loop_ext {A : Type} (lo hi : Z) (f g : Z -> A -> A) (s : A) :
  (forall i t, lo <= i <= hi -> f i t = g i t) ->
  for_loop lo hi f s = for_loop lo hi g s.
Proof.
  intros H. unfold for_loop.
  assert (Hl : forall i, i ∈ seqZ lo (hi + 1 - lo) -> lo <= i <= hi).
  { intros i Hi. apply elem_of_seqZ in Hi. lia. }
  revert s Hl. induction (seqZ lo (hi + 1 - lo)) as [| i l IH]; intros s Hl.
  - reflexivity.
  - simpl. rewrite H by (apply Hl; left).
    apply IH. intros k Hk. apply Hl. now right.
Qed.

(** ** Cells of a block *)

Lemma rd_wr_same (b : block) (k v : Z) :
  0 <= k < Z.of_nat (length b) -> rd (wr b k v) k = v.
Proof.
  intros [H0 H1]. unfold rd, wr.
  destruct (Z.ltb_spec k 0); [lia |].
  apply list_lookup_total_insert_eq. lia.
Qed.

Lemma rd_wr_other (b : block) (k k' v : Z) :
  k <> k' -> rd (wr b k v) k' = rd b k'.
Proof.
  intros Hne. unfold rd, wr.
  destruct (Z.ltb_spec k' 0); [reflexivity |].
  destruct (Z.ltb_spec k 0); [reflexivity |].
  apply list_lookup_total_insert_ne. lia.
Qed.

Lemma length_wr (b : block) (k v : Z) : length (wr b k v) = length b.
Proof.
  unfold wr. destruct (k <? 0); [reflexivity | apply length_insert].
Qed.

Lemma cell_inj (gny i j i' j' : Z) :
  0 <= j < gny -> 0 <= j' < gny ->
  cell gny i j = cell gny i' j' -> i = i' /\ j = j'.
Proof.
  unfold cell. intros Hj Hj' H.
  assert (Heq : (i - i') * gny = j' - j) by lia.
  assert (i = i'); [| lia].
  destruct (Z.lt_trichotomy i i') as [Hlt | [-> | Hgt]]; [| reflexivity |].
  - assert ((i' - i) * gny >= 1 * gny) by (apply Zmult_ge_compat_r; lia). lia.
  - assert ((i - i') * gny >= 1 * gny) by (apply Zmult_ge_compat_r; lia). lia.
Qed.

(** Two blocks of one length that agree cell by cell are equal. *)
Lemma block_ext (b1 b2 : block) :
  length b1 = length b2 ->
  (forall k, 0 <= k -> rd b1 k = rd b2 k) -> b1 = b2.
Proof.
  intros Hl H. apply list_eq. intros n.
  destruct (Nat.lt_ge_cases n (length b1)) as [Hlt | Hge].
  - specialize (H (Z.of_nat n) ltac:(lia)). unfold rd in H.
    destruct (Z.ltb_spec (Z.of_nat n) 0); [lia |].
    rewrite Nat2Z.id in H.
    rewrite (list_lookup_lookup_total_lt b1 n) by assumption.
    rewrite (list_lookup_lookup_total_lt b2 n) by lia.
    f_equal. exact H.
  - rewrite !lookup_ge_None_2 by lia. reflexivity.
Qed.

Lemma get_set_buf (buf : buffer) (v : block) (st : rank_state) :
  get_buf buf (set_buf buf v st) = v.
Proof. destruct buf; reflexivity. Qed.

(** In general a cell read after a write holds the written value
    converted to [int] and back. *)
Lemma load_store (gny : Z) (b : block) (i j : Z) (v : float) :
  0 <= cell gny i j < Z.of_nat (length b) ->
  load gny (store gny b i j v) i j = CDouble.of_int (CDouble.to_int v).
Proof. intros H. unfold load, store. now rewrite rd_wr_same. Qed.

(** ** Index arithmetic of the decomposition *)

Lemma iye_eq (ny : Z) : Solver.iye ny = ny + 1.
Proof.
  unfold Solver.iye, Decomp.iye, Decomp.nynom, Decomp.nyprocs.
  now rewrite Z.quot_1_r.
Qed.

Lemma gny_eq (ny : Z) : Solver.gny ny = ny + 2.
Proof.
  unfold Solver.gny, Decomp.gny, Decomp.iys. fold (Solver.iye ny).
  rewrite iye_eq. lia.
Qed.

Lemma nxnom_nonneg (nx : Z) : 0 <= nx -> 0 <= Solver.nxnom nx.
Proof.
  intros H. unfold Solver.nxnom, Decomp.nxnom, Decomp.nxprocs, Solver.nprocs.
  apply Z.quot_pos; lia.
Qed.

Lemma ixe_eq (nx : Z) : Solver.ixe nx = Solver.nxnom nx + 1.
Proof. reflexivity. Qed.

Lemma ixem_eq (nx : Z) : Solver.ixem nx = Solver.nxnom nx.
Proof. unfold Solver.ixem, Decomp.ixem. fold (Solver.ixe nx). rewrite ixe_eq. lia. Qed.

Lemma iyem_eq (ny : Z) : Solver.iyem ny = ny.
Proof. unfold Solver.iyem, Decomp.iyem. fold (Solver.iye ny). rewrite iye_eq. lia. Qed.

(** A block that holds the [gnx * gny] cells of a field holds every cell
    [(i, j)] of the index space [0..ixe] x [0..iye]. *)
Lemma interior_allocated (nx ny : Z) (b : block) :
  0 <= nx -> 0 <= ny ->
  Solver.gnx nx * Solver.gny ny <= Z.of_nat (length b) ->
  forall i j, 0 <= i <= Solver.ixe nx -> 0 <= j <= Solver.iye ny ->
              0 <= cell (Solver.gny ny) i j < Z.of_nat (length b).
Proof.
  intros Hnx Hny Hlen i j Hi Hj.
  pose proof (iye_eq ny) as Hiye. pose proof (gny_eq ny) as Hgny.
  assert (Hgnx : Solver.gnx nx = Solver.ixe nx + 1).
  { unfold Solver.gnx, Decomp.gnx, Decomp.ixs. fold (Solver.ixe nx). lia. }
  unfold cell. rewrite Hgny in *. rewrite Hgnx in Hlen.
  split; nia.
Qed.

(** ** Domain decomposition *)

(** C6.  For every even [nx] the column ranges [gixs..gixe] of the two
    workers are adjacent (worker 1 starts right after worker 0 ends), share
    no column, and a column is owned by one of them exactly when it lies in
    [1..nx]. *)
Theorem decomposition_covers_even_nx (nx : Z) :
  0 <= nx -> Z.even nx = true ->
  Decomp.gixs nx 2 0 = 1 /\
  Decomp.gixe nx 2 0 + 1 = Decomp.gixs nx 2 1 /\
  Decomp.gixe nx 2 1 = nx /\
  (forall i, Decomp.owns nx 2 0 i && Decomp.owns nx 2 1 i = false) /\
  (forall i, 1 <= i <= nx <->
             Decomp.owns nx 2 0 i || Decomp.owns nx 2 1 i = true).
Proof.
  intros Hnx Hev.
  apply Z.even_spec in Hev. destruct Hev as [h ->].
  unfold Decomp.owns, Decomp.gixe, Decomp.gixs, Decomp.nxnom, Decomp.nxprocs.
  replace (Z.quot (2 * h) 2) with h
    by (rewrite Z.mul_comm, Z.quot_mul; lia).
  repeat split; intros; lia.
Qed.

(** The same for the grid of the source, [nx = 100]. *)
Lemma decomposition_covers_even_nx_witness :
  Decomp.gixs 100 2 0 = 1 /\
  Decomp.gixe 100 2 0 + 1 = Decomp.gixs 100 2 1 /\
  Decomp.gixe 100 2 1 = 100 /\
  (forall i, Decomp.owns 100 2 0 i && Decomp.owns 100 2 1 i = false) /\
  (forall i, 1 <= i <= 100 <->
             Decomp.owns 100 2 0 i || Decomp.owns 100 2 1 i = true).
Proof.
  apply (decomposition_covers_even_nx 100); [lia | reflexivity].
Defined.

(** ** Row-pointer tables *)

(** Up to any [n] inside the table the setup loop succeeds and entry [i]
    holds the offset [i * gny]. *)
Lemma setup_rows_prefix (gnx gny : Z) (n : Z) :
  0 <= n <= Store.table_entries gnx ->
  exists tbl,
    foldl (fun t i => t ≫= fun tbl => table_store tbl i (i * gny))
          (Some (replicate (Z.to_nat (table_entries gnx)) 0)) (seqZ 0 n)
    = Some tbl /\
    length tbl = Z.to_nat (table_entries gnx) /\
    forall i, 0 <= i < n -> tbl !! Z.to_nat i = Some (i * gny).
Proof.
  intros Hn.
  assert (Hgen : forall m : nat, Z.of_nat m <= table_entries gnx ->
    exists tbl,
      foldl (fun t i => t ≫= fun tbl => table_store tbl i (i * gny))
            (Some (replicate (Z.to_nat (table_entries gnx)) 0))
            (seqZ 0 (Z.of_nat m))
      = Some tbl /\
      length tbl = Z.to_nat (table_entries gnx) /\
      forall i, 0 <= i < Z.of_nat m -> tbl !! Z.to_nat i = Some (i * gny)).
  { induction m as [| m IH]; intros Hm.
    - exists (replicate (Z.to_nat (table_entries gnx)) 0).
      split; [reflexivity |]. split; [apply length_replicate | lia].
    - destruct IH as (tbl & Hrun & Hlen & Hget); [lia |].
      rewrite seqZ_S, foldl_app, Hrun. simpl. rewrite Z.add_0_l.
      unfold table_store.
      destruct (Z.leb_spec 0 (Z.of_nat m)); [| lia].
      destruct (Z.ltb_spec (Z.of_nat m) (Z.of_nat (length tbl))); [| lia].
      simpl. eexists. split; [reflexivity |].
      split; [rewrite length_insert; exact Hlen |].
      intros i Hi. rewrite Nat2Z.id.
      destruct (Z.eq_dec i (Z.of_nat m)) as [-> | Hne].
      + rewrite Nat2Z.id. apply list_lookup_insert_eq. lia.
      + rewrite list_lookup_insert_ne by lia. apply Hget. lia. }
  destruct (Hgen (Z.to_nat n)) as (tbl & H1 & H2 & H3); [lia |].
  rewrite Z2Nat.id in H1, H3 by lia. eauto.
Qed.

(** C9.  The setup loop of line 86 reaches [i = gnx], an index outside the
    table of [gnx] entries, and the store it makes there leaves the table. *)
Theorem setup_loop_leaves_table (gnx gny : Z) :
  0 <= gnx ->
  gnx ∈ setup_indices gnx /\
  in_table gnx gnx = false /\
  setup_rows gnx gny = None.
Proof.
  intros Hgnx.
  assert (Hent : table_entries gnx = gnx).
  { unfold table_entries, Abi.sizeof_ptr. apply Z.div_mul. lia. }
  split; [| split].
  - unfold setup_indices. apply elem_of_seqZ. lia.
  - unfold in_table. rewrite Hent, Z.ltb_irrefl. apply andb_false_r.
  - unfold setup_rows, setup_indices.
    rewrite seqZ_app by lia. rewrite foldl_app.
    destruct (setup_rows_prefix gnx gny gnx) as (tbl & -> & Hlen & _); [lia |].
    rewrite (seqZ_cons _ 1) by lia. rewrite (seqZ_nil _ (Z.pred 1)) by lia.
    simpl. unfold table_store. rewrite Hlen, Hent, Z2Nat.id by lia.
    rewrite Z.add_0_l, Z.ltb_irrefl, andb_false_r. reflexivity.
Qed.

(** The same for the tables of the source's grid, [gnx = 52]. *)
Lemma setup_loop_leaves_table_witness :
  let gnx := Solver.gnx 100 in
  gnx ∈ setup_indices gnx /\
  in_table gnx gnx = false /\
  setup_rows gnx (Solver.gny 100) = None.
Proof.
  apply (setup_loop_leaves_table (Solver.gnx 100) (Solver.gny 100)).
  by_evaluation.
Defined.

(** ** Field buffers *)

(** C2 at one half: written to cell [(1, 1)] of any of the three blocks,
    the [double] 0.5 is read back as 0.0, because the cell is an [int]. *)
Theorem store_then_load_truncates (buf : buffer) :
  let gny := Solver.gny 100 in
  let b := get_buf buf (zero_heap 100 100) in
  load gny (store gny b 1 1 0.5%float) 1 1 = 0%float /\
  load gny (store gny b 1 1 0.5%float) 1 1 <> 0.5%float.
Proof.
  destruct buf; vm_compute; (split; [reflexivity | apply float_neq; vm_compute; discriminate]).
Qed.

(** ** Initializer *)

(** The initialisation depends on [exp] only through the [int] each
    sample is converted to. *)
Lemma Initializer_ext (nx ny : Z) (e1 e2 : float -> float)
    (worker : Z) (st : rank_state) :
  (forall i j, 1 <= i <= nx -> 1 <= j <= ny ->
     CDouble.to_int (e1 (Solver.gauss_arg nx ny i j))
     = CDouble.to_int (e2 (Solver.gauss_arg nx ny i j))) ->
  Solver.Initializer nx ny e1 worker st = Solver.Initializer nx ny e2 worker st.
Proof.
  intros H. unfold Solver.Initializer. f_equal.
  apply for_loop_ext. intros i b Hi.
  apply for_loop_ext. intros j b' Hj.
  unfold Solver.init_cell, store, Solver.gauss.
  now rewrite H.
Qed.

Lemma Initializer_unit_range (nx ny : Z) (cexp : float -> float)
    (worker : Z) (st : rank_state) :
  exp_in_unit_range cexp nx ny ->
  Solver.Initializer nx ny cexp worker st
  = Solver.Initializer nx ny (fun _ => 0%float) worker st.
Proof.
  intros H. apply Initializer_ext. intros i j Hi Hj.
  destruct (H i j Hi Hj) as [H0 H1].
  rewrite to_int_unit_range by assumption. symmetry. exact to_int_zero.
Qed.

(** glibc's results on the sixteen arguments lie in [0, 1). *)
Lemma exp_4x4_in_unit_range : exp_in_unit_range exp_4x4 4 4.
Proof.
  intros i j Hi Hj.
  assert (Ei : i = 1 \/ i = 2 \/ i = 3 \/ i = 4) by lia.
  assert (Ej : j = 1 \/ j = 2 \/ j = 3 \/ j = 4) by lia.
  destruct Ei as [-> | [-> | [-> | ->]]], Ej as [-> | [-> | [-> | ->]]];
    vm_compute; split; reflexivity.
Qed.

(** C3 on a 4 x 4 grid.  The coordinate computed for global column 2 is
    -1.8, left of the domain [(-1, 1)]; the argument of [exp] at the cell
    [(2, 2)], the one nearest the origin, is -648; and for every [exp] whose
    results on the sixteen arguments lie in [0, 1) the initialisation
    leaves both ranks' blocks all zero: that cell receives 0, not a value
    close to 1. *)
Theorem initializer_4x4_stores_zero (cexp : float -> float) :
  exp_in_unit_range cexp 4 4 ->
  Solver.xcoord 4 2 = (-1.8)%float /\
  (Solver.xcoord 4 2 <? -1)%float = true /\
  Solver.gauss_arg 4 4 2 2 = (-648)%float /\
  Solver.Initializer 4 4 cexp 0 (zero_heap 4 4) = zero_heap 4 4 /\
  Solver.Initializer 4 4 cexp 1 (zero_heap 4 4) = zero_heap 4 4 /\
  load (Solver.gny 4) (uold1D (Solver.Initializer 4 4 cexp 0 (zero_heap 4 4))) 2 2
    = 0%float.
Proof.
  intros H.
  rewrite !(Initializer_unit_range 4 4 cexp) by assumption.
  vm_compute. repeat split; reflexivity.
Qed.

(** The same with glibc's results. *)
Lemma initializer_4x4_stores_zero_witness :
  Solver.xcoord 4 2 = (-1.8)%float /\
  (Solver.xcoord 4 2 <? -1)%float = true /\
  Solver.gauss_arg 4 4 2 2 = (-648)%float /\
  Solver.Initializer 4 4 exp_4x4 0 (zero_heap 4 4) = zero_heap 4 4 /\
  Solver.Initializer 4 4 exp_4x4 1 (zero_heap 4 4) = zero_heap 4 4 /\
  load (Solver.gny 4) (uold1D (Solver.Initializer 4 4 exp_4x4 0 (zero_heap 4 4))) 2 2
    = 0%float.
Proof.
  apply (initializer_4x4_stores_zero exp_4x4). exact exp_4x4_in_unit_range.
Defined.

(** ** Halo exchange *)

(** C8.  On the synchronous transport the calls of the two ranks pair up
    one after the other and both ranks run out of calls: the single
    exchange of [uold] before the bootstrap finishes after two completed
    pairs, the exchange of [uold] and [ucur] inside a time step after four,
    for every [nx], [ny] and every content of the blocks.  The final states
    are those [halo_exchange] computes. *)
Theorem halo_exchange_completes (nx ny : Z) (s0 s1 : rank_state) :
  Mpi.run 2 (Mpi.Config (Mpi.exchange_ops nx ny 0 Uold) s0
                        (Mpi.exchange_ops nx ny 1 Uold) s1)
  = (let w := Mpi.halo_exchange nx ny Uold (s0, s1) in
     Some (Mpi.Config [] (fst w) [] (snd w))) /\
  Mpi.run 4 (Mpi.Config (Mpi.step_exchange_ops nx ny 0) s0
                        (Mpi.step_exchange_ops nx ny 1) s1)
  = (let w := Mpi.halo_exchange nx ny Ucur
                (Mpi.halo_exchange nx ny Uold (s0, s1)) in
     Some (Mpi.Config [] (fst w) [] (snd w))).
Proof.
  unfold Mpi.step_exchange_ops, Mpi.exchange_ops, Mpi.halo_exchange.
  split; repeat mpi_step; reflexivity.
Qed.

(** C4 on a 4 x 4 grid whose cells are numbered: the message of rank 0
    carries eight [int] cells, beginning with row 0 of column [ixem]; the
    receive on rank 1 overwrites its interior cell [uold[1][1]] (207 before)
    with 119, the old content of rank 0's own ghost cell [uold[ixe][1]];
    that value then comes back to rank 0, whose ghost cell at row 1 ends as
    119 and not as rank 1's pre-exchange 207; and the ghost row 0 of rank 1
    receives row 0 of rank 0's column. *)
Theorem halo_exchange_numbered_4x4 :
  let w := (numbered 100, numbered 200) in
  let w' := Mpi.halo_exchange 4 4 Uold w in
  let gny := Solver.gny 4 in
  Mpi.payload (uold1D (fst w)) (cell gny (Solver.ixem 4) 0) 4
    = [112; 113; 114; 115; 116; 117; 118; 119] /\
  rd (uold1D (snd w)) (cell gny 1 1) = 207 /\
  rd (uold1D (fst w')) (cell gny (Solver.ixe 4) 1) = 119 /\
  rd (uold1D (snd w')) (cell gny 1 1) = 119 /\
  rd (uold1D (fst w)) (cell gny (Solver.ixem 4) 0) = 112 /\
  rd (uold1D (snd w')) (cell gny 0 0) = 112.
Proof. vm_compute. repeat split; reflexivity. Qed.

Lemma cells_of_eq (count : Z) : 0 <= count -> Z.of_nat (Mpi.cells_of count) = 2 * count.
Proof.
  intros H. unfold Mpi.cells_of, Abi.sizeof_double, Abi.sizeof_int.
  rewrite Z2Nat.id.
  - replace (count * 8) with (2 * count * 4) by lia. apply Z.div_mul. lia.
  - apply Z.div_pos; lia.
Qed.

Lemma length_payload (b : block) (off count : Z) :
  0 <= off -> 0 <= count -> off + 2 * count <= Z.of_nat (length b) ->
  Z.of_nat (length (Mpi.payload b off count)) = 2 * count.
Proof.
  intros Ho Hc Hl. unfold Mpi.payload.
  pose proof (cells_of_eq count Hc).
  rewrite length_take_le; [assumption |].
  rewrite length_drop. lia.
Qed.

Lemma payload_lookup (b : block) (off count : Z) (n : nat) :
  0 <= off -> 0 <= count -> Z.of_nat n < 2 * count ->
  Mpi.payload b off count !!! n = rd b (off + Z.of_nat n).
Proof.
  intros Ho Hc Hn. unfold Mpi.payload, rd.
  pose proof (cells_of_eq count Hc).
  destruct (Z.ltb_spec (off + Z.of_nat n) 0); [lia |].
  rewrite lookup_total_take_lt by lia.
  rewrite lookup_total_drop. f_equal. lia.
Qed.

Lemma rd_deliver_inside (b : block) (off : Z) (msg : list Z) (k : Z) :
  0 <= off -> off <= k < off + Z.of_nat (length msg) ->
  k < Z.of_nat (length b) ->
  rd (Mpi.deliver b off msg) k = msg !!! Z.to_nat (k - off).
Proof.
  intros Ho Hk Hl. unfold rd, Mpi.deliver.
  destruct (Z.ltb_spec k 0); [lia |].
  rewrite list_lookup_total_inserts by lia. f_equal. lia.
Qed.

Lemma rd_deliver_outside (b : block) (off : Z) (msg : list Z) (k : Z) :
  0 <= off -> k < off \/ off + Z.of_nat (length msg) <= k ->
  rd (Mpi.deliver b off msg) k = rd b k.
Proof.
  intros Ho Hk. unfold rd, Mpi.deliver.
  destruct (Z.ltb_spec k 0); [reflexivity |].
  destruct Hk as [Hk | Hk].
  - apply list_lookup_total_inserts_lt. lia.
  - apply list_lookup_total_inserts_ge. lia.
Qed.

Lemma length_deliver (b : block) (off : Z) (msg : list Z) :
  length (Mpi.deliver b off msg) = length b.
Proof. apply length_inserts. Qed.

(** What one exchange of [buf] leaves in the two ghost columns, for every
    [ny >= 2] and blocks of the allocated size.  Rank 1's column 0 receives
    rank 0's column [ixem] in every row [0..ny+1].  Rank 0's column [ixe]
    receives rank 1's column 1 in the rows from [ny - 2] on only; in the
    rows below [ny - 2] it receives back what it held before the exchange:
    the message of [2 * ny] cells that rank 0 sent ran over into its own
    ghost column, landed on rank 1's column 1, and is returned from
    there. *)
Theorem halo_exchange_ghost_columns (nx ny : Z) (buf : buffer) (s0 s1 : rank_state) :
  0 <= nx -> 2 <= ny ->
  block_cells (Solver.gnx nx * Solver.gny ny) <= Z.of_nat (length (get_buf buf s0)) ->
  block_cells (Solver.gnx nx * Solver.gny ny) <= Z.of_nat (length (get_buf buf s1)) ->
  let w' := Mpi.halo_exchange nx ny buf (s0, s1) in
  let gny := Solver.gny ny in
  forall r, 0 <= r <= ny + 1 ->
    rd (get_buf buf (snd w')) (cell gny 0 r)
      = rd (get_buf buf s0) (cell gny (Solver.ixem nx) r) /\
    rd (get_buf buf (fst w')) (cell gny (Solver.ixe nx) r)
      = (if r <? ny - 2
         then rd (get_buf buf s0) (cell gny (Solver.ixe nx) r)
         else rd (get_buf buf s1) (cell gny 1 r)).
Proof.
  intros Hnx Hny Hl0 Hl1 w' gny r Hr.
  pose proof (nxnom_nonneg nx Hnx) as Hnom.
  pose proof (gny_eq ny) as Hgny. pose proof (ixe_eq nx) as Hixe.
  pose proof (ixem_eq nx) as Hixem.
  assert (Hgnx : Solver.gnx nx = Solver.ixe nx + 1).
  { unfold Solver.gnx, Decomp.gnx, Decomp.ixs. fold (Solver.ixe nx). lia. }
  assert (Hcells : forall z, block_cells z = 2 * z).
  { intros z. unfold block_cells, Abi.sizeof_ptr, Abi.sizeof_int.
    replace (z * 8) with (2 * z * 4) by lia. apply Z.div_mul. lia. }
  rewrite Hcells in Hl0, Hl1.
  subst w'. unfold Mpi.halo_exchange, Mpi.transfer. cbn [fst snd].
  change (Decomp.gny ny) with (Solver.gny ny).
  change (Decomp.ixe nx 2) with (Solver.ixe nx).
  change (Decomp.ixem nx 2) with (Solver.ixem nx).
  rewrite !get_set_buf.
  set (b0 := get_buf buf s0) in *. set (b1 := get_buf buf s1) in *.
  unfold cell. subst gny. rewrite Hgny, Hgnx, Hixe in *. rewrite Hixem.
  set (n := Solver.nxnom nx) in *.
  assert (Hsz : (n + 1 + 1) * (ny + 2) = n * (ny + 2) + 2 * (ny + 2)) by lia.
  assert (Hn2 : 0 <= n * (ny + 2)) by nia.
  set (msg0 := Mpi.payload b0 (n * (ny + 2) + 0) ny).
  assert (Hm0 : Z.of_nat (length msg0) = 2 * ny).
  { apply length_payload; lia. }
  set (b1' := Mpi.deliver b1 (0 * (ny + 2) + 0) msg0).
  assert (Hb1' : length b1' = length b1) by apply length_deliver.
  set (msg1 := Mpi.payload b1' (1 * (ny + 2) + 0) ny).
  assert (Hm1 : Z.of_nat (length msg1) = 2 * ny).
  { apply length_payload; lia. }
  split.
  - subst b1'. rewrite rd_deliver_inside by lia.
    subst msg0. rewrite payload_lookup by lia.
    f_equal. lia.
  - rewrite rd_deliver_inside by lia.
    subst msg1. rewrite payload_lookup by lia.
    replace (Z.of_nat (Z.to_nat ((n + 1) * (ny + 2) + r - ((n + 1) * (ny + 2) + 0))))
      with r by lia.
    destruct (Z.ltb_spec r (ny - 2)) as [Hlt | Hge].
    + subst b1'. rewrite rd_deliver_inside by lia.
      subst msg0. rewrite payload_lookup by lia.
      f_equal. lia.
    + subst b1'. rewrite rd_deliver_outside by lia.
      f_equal. lia.
Qed.

(** The statement above at row 1 of a 4 x 4 grid with numbered cells. *)
Lemma halo_exchange_ghost_columns_witness :
  let w' := Mpi.halo_exchange 4 4 Uold (numbered 100, numbered 200) in
  let gny := Solver.gny 4 in
  rd (get_buf Uold (snd w')) (cell gny 0 1)
    = rd (get_buf Uold (numbered 100)) (cell gny (Solver.ixem 4) 1) /\
  rd (get_buf Uold (fst w')) (cell gny (Solver.ixe 4) 1)
    = (if 1 <? 4 - 2
       then rd (get_buf Uold (numbered 100)) (cell gny (Solver.ixe 4) 1)
       else rd (get_buf Uold (numbered 200)) (cell gny 1 1)).
Proof.
  apply (halo_exchange_ghost_columns 4 4 Uold (numbered 100) (numbered 200));
    first [lia | by_evaluation].
Defined.

(** ** BoundaryApplier *)

(** The steps of a boundary application, one zeroed cell at a time. *)
Lemma zeroed_on_start (st0 : rank_state) : zeroed_on (fun _ => False) st0 st0.
Proof. unfold zeroed_on. intuition. Qed.

Lemma zeroed_on_ext (st0 : rank_state) (W W' : Z -> Prop) (st : rank_state) :
  (forall k, W k <-> W' k) -> zeroed_on W st0 st -> zeroed_on W' st0 st.
Proof.
  intros HW (Hn & Ho & Hc & Hk). repeat split; try assumption.
  - apply Hk, HW. assumption.
  - apply Hk, HW. assumption.
  - apply Hk. rewrite HW. assumption.
  - apply Hk. rewrite HW. assumption.
Qed.

Lemma zeroed_on_zero_both (ny : Z) (st0 : rank_state) (W : Z -> Prop)
    (st : rank_state) (i j : Z) :
  allocated ny st0 i j ->
  zeroed_on W st0 st ->
  zeroed_on (fun k => W k \/ k = cell (Solver.gny ny) i j) st0
            (Solver.zero_both ny i j st).
Proof.
  intros [Ho Hc] (Hn & Hlo & Hlc & Hk).
  unfold zeroed_on, Solver.zero_both, store. rewrite to_int_zero.
  cbn [uold1D ucur1D unew1D].
  repeat split; try assumption.
  - rewrite length_wr. assumption.
  - rewrite length_wr. assumption.
  - destruct (Z.eq_dec k (cell (Solver.gny ny) i j)) as [-> | Hne].
    + apply rd_wr_same. rewrite Hlo. assumption.
    + rewrite rd_wr_other by congruence. apply Hk. tauto.
  - destruct (Z.eq_dec k (cell (Solver.gny ny) i j)) as [-> | Hne].
    + apply rd_wr_same. rewrite Hlc. assumption.
    + rewrite rd_wr_other by congruence. apply Hk. tauto.
  - rewrite rd_wr_other by (intros E; symmetry in E; tauto). apply Hk. tauto.
  - rewrite rd_wr_other by (intros E; symmetry in E; tauto). apply Hk. tauto.
Qed.

Lemma zeroed_on_loop (ny : Z) (st0 : rank_state) (W : Z -> Prop)
    (st : rank_state) (lo hi : Z) (f g : Z -> Z) :
  (forall i, lo <= i <= hi -> allocated ny st0 (f i) (g i)) ->
  zeroed_on W st0 st ->
  zeroed_on (fun k => W k \/ exists i, lo <= i <= hi /\ k = cell (Solver.gny ny) (f i) (g i))
            st0
            (for_loop lo hi (fun i => Solver.zero_both ny (f i) (g i)) st).
Proof.
  intros Ha H0.
  destruct (Z_lt_le_dec hi lo) as [Hempty | Hle].
  - rewrite for_loop_empty by assumption.
    eapply zeroed_on_ext; [| exact H0].
    intros k. split; [tauto |]. intros [? | (i & ? & _)]; [assumption | lia].
  - eapply zeroed_on_ext;
      [| apply (for_loop_invariant
                  (fun n s => zeroed_on
                     (fun k => W k \/ exists i, lo <= i < n /\
                                                k = cell (Solver.gny ny) (f i) (g i))
                     st0 s))].
    + intros k. split.
      * intros [? | (i & ? & ?)]; [tauto |]. right. exists i. split; [lia | assumption].
      * intros [? | (i & ? & ?)]; [tauto |]. right. exists i. split; [lia | assumption].
    + lia.
    + eapply zeroed_on_ext; [| exact H0].
      intros k. split; [tauto |]. intros [? | (i & ? & _)]; [assumption | lia].
    + intros i t Hi Ht.
      eapply zeroed_on_ext; [| apply zeroed_on_zero_both; [apply Ha, Hi | exact Ht]].
      intros k. split.
      * intros [[? | (i' & ? & ?)] | ->].
        -- tauto.
        -- right. exists i'. split; [lia | assumption].
        -- right. exists i. split; [lia | reflexivity].
      * intros [? | (i' & Hi' & ->)]; [tauto |].
        destruct (Z.eq_dec i' i) as [-> | Hne]; [tauto |].
        left. right. exists i'. split; [lia | reflexivity].
Qed.

(** A boundary application zeroes the cells of [on_edge] in [uold] and
    [ucur] and changes nothing else. *)
Lemma BoundaryApplier_zeroed (nx ny worker : Z) (st0 : rank_state) :
  0 <= nx -> 0 <= ny ->
  (forall i j, 0 <= i <= Solver.ixe nx -> 0 <= j <= Solver.iye ny ->
               allocated ny st0 i j) ->
  zeroed_on (on_edge nx ny worker) st0 (Solver.BoundaryApplier nx ny worker st0).
Proof.
  intros Hnx Hny Halloc.
  pose proof (nxnom_nonneg nx Hnx) as Hnom.
  pose proof (ixe_eq nx) as Hixe. pose proof (ixem_eq nx) as Hixem.
  pose proof (iye_eq ny) as Hiye. pose proof (iyem_eq ny) as Hiyem.
  unfold Solver.BoundaryApplier, on_edge.
  destruct (Z.eqb_spec worker 0) as [-> | Hw]; cbv zeta.
  - assert (Ha : forall i j, 0 <= i <= Solver.ixe nx -> 0 <= j <= Solver.iye ny ->
                             allocated ny st0 i j) by exact Halloc.
    pose proof (zeroed_on_start st0) as H0.
    apply (zeroed_on_zero_both ny st0 _ _ 0 0) in H0; [| apply Ha; lia].
    apply (zeroed_on_zero_both ny st0 _ _ 0 (Solver.iye ny)) in H0; [| apply Ha; lia].
    apply (zeroed_on_zero_both ny st0 _ _ (Solver.ixe nx) 0) in H0; [| apply Ha; lia].
    apply (zeroed_on_zero_both ny st0 _ _ (Solver.ixe nx) (Solver.iye ny)) in H0; [| apply Ha; lia].
    apply (zeroed_on_loop ny st0 _ _ 1 (Solver.iyem ny) (fun _ => 0) (fun j => j)) in H0;
      [| intros; apply Ha; lia].
    apply (zeroed_on_loop ny st0 _ _ 1 (Solver.ixem nx) (fun i => i) (fun _ => 0)) in H0;
      [| intros; apply Ha; lia].
    apply (zeroed_on_loop ny st0 _ _ 1 (Solver.ixem nx) (fun i => i) (fun _ => Solver.iye ny)) in H0;
      [| intros; apply Ha; lia].
    eapply zeroed_on_ext; [| exact H0].
    intros k. split.
    + intros [[[[[[[[] | ->] | ->] | ->] | ->] | (j & Hj & ->)] | (i & Hi & ->)] | (i & Hi & ->)];
        eexists _, _; (split; [reflexivity |]); lia.
    + intros (i & j & -> & Hi & Hj & Hc).
      destruct (Z.eq_dec i 0) as [-> | Hie].
      * destruct (Z.eq_dec j 0) as [-> | Hj0]; [tauto |].
        destruct (Z.eq_dec j (Solver.iye ny)) as [-> | Hje]; [tauto |].
        left. left. right. exists j. split; [lia | reflexivity].
      * destruct (Z.eq_dec i (Solver.ixe nx)) as [-> | Hi0].
        -- destruct Hc as [Hc | [-> | ->]]; [lia | tauto | tauto].
        -- destruct Hc as [Hc | [-> | ->]]; [lia | |].
           ++ left. right. exists i. split; [lia | reflexivity].
           ++ right. exists i. split; [lia | reflexivity].
  - assert (Ha : forall i j, 0 <= i <= Solver.ixe nx -> 0 <= j <= Solver.iye ny ->
                             allocated ny st0 i j) by exact Halloc.
    pose proof (zeroed_on_start st0) as H0.
    apply (zeroed_on_zero_both ny st0 _ _ (Solver.ixe nx) 0) in H0; [| apply Ha; lia].
    apply (zeroed_on_zero_both ny st0 _ _ (Solver.ixe nx) (Solver.iye ny)) in H0; [| apply Ha; lia].
    apply (zeroed_on_zero_both ny st0 _ _ 0 0) in H0; [| apply Ha; lia].
    apply (zeroed_on_zero_both ny st0 _ _ 0 (Solver.iye ny)) in H0; [| apply Ha; lia].
    apply (zeroed_on_loop ny st0 _ _ 1 (Solver.iyem ny) (fun _ => (Solver.ixe nx)) (fun j => j)) in H0;
      [| intros; apply Ha; lia].
    apply (zeroed_on_loop ny st0 _ _ 1 (Solver.ixem nx) (fun i => i) (fun _ => 0)) in H0;
      [| intros; apply Ha; lia].
    apply (zeroed_on_loop ny st0 _ _ 1 (Solver.ixem nx) (fun i => i) (fun _ => Solver.iye ny)) in H0;
      [| intros; apply Ha; lia].
    eapply zeroed_on_ext; [| exact H0].
    intros k. split.
    + intros [[[[[[[[] | ->] | ->] | ->] | ->] | (j & Hj & ->)] | (i & Hi & ->)] | (i & Hi & ->)];
        eexists _, _; (split; [reflexivity |]); lia.
    + intros (i & j & -> & Hi & Hj & Hc).
      destruct (Z.eq_dec i (Solver.ixe nx)) as [-> | Hie].
      * destruct (Z.eq_dec j 0) as [-> | Hj0]; [tauto |].
        destruct (Z.eq_dec j (Solver.iye ny)) as [-> | Hje]; [tauto |].
        left. left. right. exists j. split; [lia | reflexivity].
      * destruct (Z.eq_dec i 0) as [-> | Hi0].
        -- destruct Hc as [Hc | [-> | ->]]; [lia | tauto | tauto].
        -- destruct Hc as [Hc | [-> | ->]]; [lia | |].
           ++ left. right. exists i. split; [lia | reflexivity].
           ++ right. exists i. split; [lia | reflexivity].
Qed.

(** C7, as amended.  A boundary application leaves unchanged every cell of
    the interface column in the rows [1..ny] (column [ixe] on worker 0,
    column 0 on the other worker), in [uold] and in [ucur]; it zeroes the
    rank's physical edge column and the rows 0 and [iye] over all columns
    [0..ixe], the two end cells of the interface column among them; and it
    leaves [unew] alone.  The blocks are assumed to hold the [gnx * gny]
    cells of the field. *)
Theorem boundary_applier_keeps_interface_interior
    (nx ny worker : Z) (st : rank_state) :
  0 <= nx -> 0 <= ny ->
  Solver.gnx nx * Solver.gny ny <= Z.of_nat (length (uold1D st)) ->
  Solver.gnx nx * Solver.gny ny <= Z.of_nat (length (ucur1D st)) ->
  let st' := Solver.BoundaryApplier nx ny worker st in
  let interface := if worker =? 0 then Solver.ixe nx else 0 in
  let edge := if worker =? 0 then 0 else Solver.ixe nx in
  (forall j, 1 <= j <= ny ->
     rd (uold1D st') (cell (Solver.gny ny) interface j)
       = rd (uold1D st) (cell (Solver.gny ny) interface j) /\
     rd (ucur1D st') (cell (Solver.gny ny) interface j)
       = rd (ucur1D st) (cell (Solver.gny ny) interface j)) /\
  (forall i j, 0 <= i <= Solver.ixe nx -> 0 <= j <= Solver.iye ny ->
     i = edge \/ j = 0 \/ j = Solver.iye ny ->
     rd (uold1D st') (cell (Solver.gny ny) i j) = 0 /\
     rd (ucur1D st') (cell (Solver.gny ny) i j) = 0) /\
  unew1D st' = unew1D st.
Proof.
  intros Hnx Hny Hlo Hlc st' interface edge.
  pose proof (nxnom_nonneg nx Hnx) as Hnom.
  pose proof (ixe_eq nx) as Hixe. pose proof (iye_eq ny) as Hiye.
  pose proof (gny_eq ny) as Hgny.
  assert (Hgnx : Solver.gnx nx = Solver.ixe nx + 1).
  { unfold Solver.gnx, Decomp.gnx, Decomp.ixs. fold (Solver.ixe nx). lia. }
  assert (Halloc : forall i j, 0 <= i <= Solver.ixe nx -> 0 <= j <= Solver.iye ny ->
                               allocated ny st i j).
  { intros i j Hi Hj. unfold allocated, cell. rewrite Hgny.
    assert (i * (ny + 2) + j < Solver.gnx nx * Solver.gny ny) by (rewrite Hgnx, Hgny; nia).
    split; split; nia. }
  destruct (BoundaryApplier_zeroed nx ny worker st Hnx Hny Halloc)
    as (Hnew & _ & _ & Hk).
  fold st' in Hnew, Hk.
  split; [| split; [| exact Hnew]].
  - intros j Hj. apply Hk.
    intros (i' & j' & Heq & Hi' & Hj' & Hc).
    apply cell_inj in Heq; [| lia | lia].
    destruct Heq as [<- <-].
    subst interface. destruct (worker =? 0); lia.
  - intros i j Hi Hj Hc. apply Hk.
    exists i, j. subst edge. tauto.
Qed.

(** The statement above on worker 0 of a 4 x 4 grid with a zeroed heap. *)
Lemma boundary_applier_keeps_interface_interior_witness :
  let st := zero_heap 4 4 in
  let st' := Solver.BoundaryApplier 4 4 0 st in
  (forall j, 1 <= j <= 4 ->
     rd (uold1D st') (cell (Solver.gny 4) (Solver.ixe 4) j)
       = rd (uold1D st) (cell (Solver.gny 4) (Solver.ixe 4) j) /\
     rd (ucur1D st') (cell (Solver.gny 4) (Solver.ixe 4) j)
       = rd (ucur1D st) (cell (Solver.gny 4) (Solver.ixe 4) j)) /\
  (forall i j, 0 <= i <= Solver.ixe 4 -> 0 <= j <= Solver.iye 4 ->
     i = 0 \/ j = 0 \/ j = Solver.iye 4 ->
     rd (uold1D st') (cell (Solver.gny 4) i j) = 0 /\
     rd (ucur1D st') (cell (Solver.gny 4) i j) = 0) /\
  unew1D st' = unew1D st.
Proof.
  apply (boundary_applier_keeps_interface_interior 4 4 0 (zero_heap 4 4));
    by_evaluation.
Defined.

(** C7 as first stated fails: on worker 0 of a 4 x 4 grid the cell
    [uold[ixe][0]] of the interface column held 7 and holds 0 after the
    boundary application, so not every cell of that column is kept. *)
Lemma boundary_applier_zeroes_interface_corner :
  ~ (forall j, 0 <= j <= Solver.iye 4 ->
       rd (uold1D (Solver.BoundaryApplier 4 4 0 corner_marked))
          (cell (Solver.gny 4) (Solver.ixe 4) j)
       = rd (uold1D corner_marked) (cell (Solver.gny 4) (Solver.ixe 4) j)).
Proof.
  intros H. specialize (H 0). vm_compute in H.
  assert (E : 0 = 7) by (apply H; split; discriminate).
  discriminate E.
Qed.

(** A second boundary application changes nothing. *)
Theorem boundary_applier_idempotent (nx ny worker : Z) (st : rank_state) :
  0 <= nx -> 0 <= ny ->
  Solver.gnx nx * Solver.gny ny <= Z.of_nat (length (uold1D st)) ->
  Solver.gnx nx * Solver.gny ny <= Z.of_nat (length (ucur1D st)) ->
  Solver.BoundaryApplier nx ny worker (Solver.BoundaryApplier nx ny worker st)
  = Solver.BoundaryApplier nx ny worker st.
Proof.
  intros Hnx Hny Hlo Hlc.
  assert (Ha : forall i j, 0 <= i <= Solver.ixe nx -> 0 <= j <= Solver.iye ny ->
                           allocated ny st i j).
  { intros i j Hi Hj. split; apply (interior_allocated nx ny); assumption. }
  destruct (BoundaryApplier_zeroed nx ny worker st Hnx Hny Ha)
    as (Hn1 & Ho1 & Hc1 & Hk1).
  set (st1 := Solver.BoundaryApplier nx ny worker st) in *.
  assert (Ha1 : forall i j, 0 <= i <= Solver.ixe nx -> 0 <= j <= Solver.iye ny ->
                            allocated ny st1 i j).
  { intros i j Hi Hj. unfold allocated. rewrite Ho1, Hc1. apply Ha; assumption. }
  destruct (BoundaryApplier_zeroed nx ny worker st1 Hnx Hny Ha1)
    as (Hn2 & Ho2 & Hc2 & Hk2).
  set (st2 := Solver.BoundaryApplier nx ny worker st1) in *.
  assert (Hsame : forall k, rd (uold1D st2) k = rd (uold1D st1) k /\
                            rd (ucur1D st2) k = rd (ucur1D st1) k).
  { intros k.
    assert (Hw : on_edge nx ny worker k ->
                 rd (uold1D st2) k = rd (uold1D st1) k /\
                 rd (ucur1D st2) k = rd (ucur1D st1) k).
    { intros Hw. destruct (proj1 (Hk1 k) Hw) as [-> ->].
      exact (proj1 (Hk2 k) Hw). }
    destruct (Z.eq_dec (rd (uold1D st2) k) (rd (uold1D st1) k)) as [E1 | N1];
      destruct (Z.eq_dec (rd (ucur1D st2) k) (rd (ucur1D st1) k)) as [E2 | N2];
      try (split; assumption);
      apply (proj2 (Hk2 k)); intros Hedge; apply Hw in Hedge; tauto. }
  destruct st1 as [o1 c1 n1], st2 as [o2 c2 n2]. cbn in *.
  f_equal.
  - apply block_ext; [assumption | intros k _; apply Hsame].
  - apply block_ext; [assumption | intros k _; apply Hsame].
  - assumption.
Qed.

(** Idempotence tried on worker 1 of a 4 x 4 grid with numbered cells. *)
Lemma boundary_applier_idempotent_witness :
  Solver.BoundaryApplier 4 4 1 (Solver.BoundaryApplier 4 4 1 (numbered 100))
  = Solver.BoundaryApplier 4 4 1 (numbered 100).
Proof.
  apply (boundary_applier_idempotent 4 4 1 (numbered 100)); by_evaluation.
Defined.

(** ** TimeStepper *)

Lemma filled_on_ext (gny : Z) (F : Z -> Z -> float) (P Q : Z -> Z -> Prop)
    (b0 b : block) :
  (forall i j, P i j <-> Q i j) -> filled_on gny F P b0 b -> filled_on gny F Q b0 b.
Proof.
  intros H (Hl & Hin & Hout). split; [exact Hl |]. split.
  - intros i j Hq. apply Hin, H, Hq.
  - intros k Hk. apply Hout. intros i j Hp. apply Hk, H, Hp.
Qed.

Lemma filled_on_store (gny : Z) (F : Z -> Z -> float) (P : Z -> Z -> Prop)
    (b0 b : block) (i j : Z) :
  0 <= j < gny ->
  (forall i' j', P i' j' -> 0 <= j' < gny) ->
  0 <= cell gny i j < Z.of_nat (length b0) ->
  filled_on gny F P b0 b ->
  filled_on gny F (fun i' j' => P i' j' \/ (i' = i /\ j' = j)) b0
            (store gny b i j (F i j)).
Proof.
  intros Hj HP Hc (Hl & Hin & Hout). unfold store.
  split; [now rewrite length_wr |]. split.
  - intros i' j' [Hp | [-> ->]].
    + destruct (Z.eq_dec (cell gny i j) (cell gny i' j')) as [E | Hne].
      * apply cell_inj in E; [| assumption | eauto].
        destruct E as [<- <-]. rewrite rd_wr_same by (rewrite Hl; assumption).
        reflexivity.
      * rewrite rd_wr_other by assumption. apply Hin, Hp.
    + rewrite rd_wr_same by (rewrite Hl; assumption). reflexivity.
  - intros k Hk. rewrite rd_wr_other.
    + apply Hout. intros i' j' Hp. apply Hk. now left.
    + intros E. apply (Hk i j); [right; split; reflexivity | now symmetry].
Qed.

(** The nested loop that stores [F i j] in every cell of the rows
    [1..n] and columns [1..m]. *)
Lemma filled_on_loops (gny : Z) (F : Z -> Z -> float) (n m : Z) (b0 : block) :
  0 <= n -> 0 <= m < gny ->
  (forall i j, 1 <= i <= n -> 1 <= j <= m ->
               0 <= cell gny i j < Z.of_nat (length b0)) ->
  filled_on gny F (fun i j => 1 <= i <= n /\ 1 <= j <= m) b0
    (for_loop 1 n (fun i => for_loop 1 m (fun j b => store gny b i j (F i j))) b0).
Proof.
  intros Hn Hm Halloc.
  eapply filled_on_ext;
    [| apply (for_loop_invariant
                (fun i b => filled_on gny F
                   (fun i' j' => 1 <= i' < i /\ 1 <= j' <= m) b0 b))].
  - intros i j. cbv beta. lia.
  - lia.
  - split; [reflexivity |]. split; [intros; lia | reflexivity].
  - intros i b Hi Hb.
    eapply filled_on_ext;
      [| apply (for_loop_invariant
                  (fun j b' => filled_on gny F
                     (fun i' j' => (1 <= i' < i /\ 1 <= j' <= m)
                                   \/ (i' = i /\ 1 <= j' < j)) b0 b'))].
    + intros i' j'. cbv beta. lia.
    + lia.
    + eapply filled_on_ext; [| exact Hb]. intros i' j'. cbv beta. lia.
    + intros j b' Hj Hb'.
      eapply filled_on_ext; [| apply filled_on_store; [| | | exact Hb']].
      * intros i' j'. cbv beta. lia.
      * lia.
      * intros i' j'. cbv beta. lia.
      * apply Halloc; lia.
Qed.

(** Whatever the blocks hold, a time step leaves [uold] and [ucur] as they
    are, stores in every owned interior cell of [unew] (rows [1..nxnom],
    columns [1..ny]) the value of the recurrence of line 208 converted to
    [int], and changes no other cell of [unew]. *)
Theorem timestepper_writes_owned_interior (nx ny nsteps : Z) (st : rank_state) :
  0 <= nx -> 0 <= ny ->
  Solver.gnx nx * Solver.gny ny <= Z.of_nat (length (unew1D st)) ->
  let st' := Solver.TimeStepper nx ny nsteps st in
  let gny := Solver.gny ny in
  uold1D st' = uold1D st /\
  ucur1D st' = ucur1D st /\
  (forall i j, 1 <= i <= Solver.nxnom nx -> 1 <= j <= ny ->
     rd (unew1D st') (cell gny i j)
     = CDouble.to_int
         (Solver.stencil_value nx ny nsteps (uold1D st) (ucur1D st) i j)) /\
  (forall k,
     (forall i j, 1 <= i <= Solver.nxnom nx -> 1 <= j <= ny -> k <> cell gny i j) ->
     rd (unew1D st') k = rd (unew1D st) k).
Proof.
  intros Hnx Hny Hlen st' gny.
  pose proof (nxnom_nonneg nx Hnx) as Hnom.
  pose proof (gny_eq ny) as Hgny. pose proof (iye_eq ny) as Hiye.
  destruct (filled_on_loops gny
              (Solver.stencil_value nx ny nsteps (uold1D st) (ucur1D st))
              (Solver.nxnom nx) ny (unew1D st)) as (_ & Hin & Hout).
  - exact Hnom.
  - subst gny. lia.
  - intros i j Hi Hj. apply (interior_allocated nx ny); try assumption.
    + rewrite ixe_eq. lia.
    + lia.
  - split; [reflexivity |]. split; [reflexivity |]. split.
    + intros i j Hi Hj. apply Hin. split; assumption.
    + intros k Hk. apply Hout. intros i j [Hi Hj]. apply Hk; assumption.
Qed.

(** The characterisation of a time step, tried on rank 0 of a 4 x 4 grid
    with numbered cells. *)
Lemma timestepper_writes_owned_interior_witness :
  let st := numbered 100 in
  let st' := Solver.TimeStepper 4 4 10 st in
  let gny := Solver.gny 4 in
  uold1D st' = uold1D st /\
  ucur1D st' = ucur1D st /\
  (forall i j, 1 <= i <= Solver.nxnom 4 -> 1 <= j <= 4 ->
     rd (unew1D st') (cell gny i j)
     = CDouble.to_int
         (Solver.stencil_value 4 4 10 (uold1D st) (ucur1D st) i j)) /\
  (forall k,
     (forall i j, 1 <= i <= Solver.nxnom 4 -> 1 <= j <= 4 -> k <> cell gny i j) ->
     rd (unew1D st') k = rd (unew1D st) k).
Proof.
  apply (timestepper_writes_owned_interior 4 4 10 (numbered 100));
    by_evaluation.
Defined.

(** The bootstrap does the same on [ucur] with the first-order formula of
    lines 121 to 123, reading [uold] only. *)
Theorem bootstrap_writes_owned_interior (nx ny nsteps : Z) (st : rank_state) :
  0 <= nx -> 0 <= ny ->
  Solver.gnx nx * Solver.gny ny <= Z.of_nat (length (ucur1D st)) ->
  let st' := Solver.bootstrap nx ny nsteps st in
  let gny := Solver.gny ny in
  uold1D st' = uold1D st /\
  unew1D st' = unew1D st /\
  (forall i j, 1 <= i <= Solver.nxnom nx -> 1 <= j <= ny ->
     rd (ucur1D st') (cell gny i j)
     = CDouble.to_int (Solver.bootstrap_value nx ny nsteps (uold1D st) i j)) /\
  (forall k,
     (forall i j, 1 <= i <= Solver.nxnom nx -> 1 <= j <= ny -> k <> cell gny i j) ->
     rd (ucur1D st') k = rd (ucur1D st) k).
Proof.
  intros Hnx Hny Hlen st' gny.
  pose proof (nxnom_nonneg nx Hnx) as Hnom.
  pose proof (gny_eq ny) as Hgny. pose proof (iye_eq ny) as Hiye.
  assert (Hnynom : Solver.nynom ny = ny).
  { unfold Solver.nynom, Decomp.nynom, Decomp.nyprocs. apply Z.quot_1_r. }
  destruct (filled_on_loops gny
              (Solver.bootstrap_value nx ny nsteps (uold1D st))
              (Solver.nxnom nx) ny (ucur1D st)) as (_ & Hin & Hout).
  - exact Hnom.
  - subst gny. lia.
  - intros i j Hi Hj. apply (interior_allocated nx ny); try assumption.
    + rewrite ixe_eq. lia.
    + lia.
  - subst st'. unfold Solver.bootstrap. rewrite Hnynom. cbn [set_buf uold1D ucur1D unew1D].
    split; [reflexivity |]. split; [reflexivity |]. split.
    + intros i j Hi Hj. apply Hin. split; assumption.
    + intros k Hk. apply Hout. intros i j [Hi Hj]. apply Hk; assumption.
Qed.

(** The same trial for the bootstrap. *)
Lemma bootstrap_writes_owned_interior_witness :
  let st := numbered 100 in
  let st' := Solver.bootstrap 4 4 10 st in
  let gny := Solver.gny 4 in
  uold1D st' = uold1D st /\
  unew1D st' = unew1D st /\
  (forall i j, 1 <= i <= Solver.nxnom 4 -> 1 <= j <= 4 ->
     rd (ucur1D st') (cell gny i j)
     = CDouble.to_int (Solver.bootstrap_value 4 4 10 (uold1D st) i j)) /\
  (forall k,
     (forall i j, 1 <= i <= Solver.nxnom 4 -> 1 <= j <= 4 -> k <> cell gny i j) ->
     rd (ucur1D st') k = rd (ucur1D st) k).
Proof.
  apply (bootstrap_writes_owned_interior 4 4 10 (numbered 100));
    by_evaluation.
Defined.

(** C5 on the grid of the source (100 x 100 points, 10 steps), rank 0, with
    [ucur[2][1] = 1] and zero elsewhere: the recurrence of line 208 gives
    31.484... at cell [(1, 1)], the cell [unew[1][1]] receives 31, and read
    back it differs from the value of the recurrence. *)
Theorem timestepper_truncates_unit_pulse :
  let gny := Solver.gny 100 in
  let st' := Solver.TimeStepper 100 100 10 unit_pulse in
  Solver.stencil_value 100 100 10 (uold1D unit_pulse) (ucur1D unit_pulse) 1 1
    = 0x1.f7c0ca4587e6ap+4%float /\
  rd (unew1D st') (cell gny 1 1) = 31 /\
  load gny (unew1D st') 1 1
    <> Solver.stencil_value 100 100 10 (uold1D unit_pulse) (ucur1D unit_pulse) 1 1.
Proof.
  vm_compute. repeat split; try reflexivity.
  apply float_neq. vm_compute. discriminate.
Qed.

(** ** The two-rank program against the serial reference *)

(** From all-zero blocks a time step gives all-zero blocks. *)
Lemma time_step_zero_world : TwoRank.time_step 4 4 10 zero_world = zero_world.
Proof. vm_compute. reflexivity. Qed.

Lemma startup_zero_world (cexp : float -> float) :
  exp_in_unit_range cexp 4 4 ->
  TwoRank.startup 4 4 10 cexp zero_world = zero_world.
Proof.
  intros H. unfold TwoRank.startup, TwoRank.both, zero_world. cbn [fst snd].
  rewrite !(Initializer_unit_range 4 4 cexp) by assumption.
  vm_compute. reflexivity.
Qed.

(** C1 on a 4 x 4 grid with [nsteps = 10] and a zeroed heap.  For every
    [exp] whose results on the sixteen arguments lie in [0, 1), and after
    any number of time steps, both ranks hold zero in every cell, so the
    stitched field is zero at every interior point. *)
Theorem two_rank_4x4_is_identically_zero (cexp : float -> float) (iterations : nat) :
  exp_in_unit_range cexp 4 4 ->
  TwoRank.solve 4 4 10 cexp iterations zero_world = zero_world /\
  forall buf i j,
    1 <= i <= 4 -> 1 <= j <= 4 ->
    TwoRank.stitched 4 4 buf (TwoRank.solve 4 4 10 cexp iterations zero_world) i j = 0.
Proof.
  intros H.
  assert (E : TwoRank.solve 4 4 10 cexp iterations zero_world = zero_world).
  { unfold TwoRank.solve. induction iterations as [| n IH]; simpl.
    - apply startup_zero_world, H.
    - rewrite IH. apply time_step_zero_world. }
  split; [exact E |].
  intros buf i j Hi Hj. rewrite E.
  assert (Ei : i = 1 \/ i = 2 \/ i = 3 \/ i = 4) by lia.
  assert (Ej : j = 1 \/ j = 2 \/ j = 3 \/ j = 4) by lia.
  destruct buf, Ei as [-> | [-> | [-> | ->]]], Ej as [-> | [-> | [-> | ->]]];
    reflexivity.
Qed.

(** The same with glibc's results, after one time step. *)
Lemma two_rank_4x4_is_identically_zero_witness :
  TwoRank.solve 4 4 10 exp_4x4 1 zero_world = zero_world /\
  forall buf i j,
    1 <= i <= 4 -> 1 <= j <= 4 ->
    TwoRank.stitched 4 4 buf (TwoRank.solve 4 4 10 exp_4x4 1 zero_world) i j = 0.
Proof.
  apply (two_rank_4x4_is_identically_zero exp_4x4 1). exact exp_4x4_in_unit_range.
Defined.

(** The serial reference on the same data, after the same single step,
    holds about 1.39e-170 at the interior point [(1, 1)], where the
    stitched field of the two ranks holds 0. *)
Lemma serial_reference_4x4_differs :
  let ref := Reference.solve 4 4 Solver.csq (Solver.dtdxsq 4 10)
               (Solver.gauss 4 4 exp_4x4) 1 in
  snd ref 1 1 = 0x1.ae034320a80c1p-565%float /\
  snd ref 1 1 <> CDouble.of_int (TwoRank.stitched 4 4 Ucur
                   (TwoRank.solve 4 4 10 exp_4x4 1 zero_world) 1 1).
Proof.
  vm_compute. split; [reflexivity |].
  apply float_neq. vm_compute. discriminate.
Qed.

(** ** The reduction utility *)

(** C10.  Where both processor counts are defined (the products
    [nprocs * nx], [nprocs * ny] and the sum [nx + ny] in the range of
    [int], [nx + ny] nonzero), the utility aborts, with error code 1 and no
    other, exactly when a processor count is zero or one of the variables
    [nxnom], [nynom] holds zero at line 34, where nothing has been assigned
    to them yet; and it proceeds exactly when none of the four is zero, with
    the patch sizes [nx / nxprocs] and [ny / nyprocs] that lines 40 and 41
    assign afterwards, which the guard has not seen. *)
Theorem reduce_abort_depends_on_unassigned_sizes
    (nx ny nprocs nxnom0 nynom0 nxp nyp : Z) :
  Reduce.nxprocs nx ny nprocs = Some nxp ->
  Reduce.nyprocs nx ny nprocs = Some nyp ->
  (Reduce.main nx ny nprocs nxnom0 nynom0 = Reduce.Aborted 1 <->
     nxp = 0 \/ nyp = 0 \/ nxnom0 = 0 \/ nynom0 = 0) /\
  (forall code, Reduce.main nx ny nprocs nxnom0 nynom0 = Reduce.Aborted code ->
                code = 1) /\
  (forall a b c d,
     Reduce.main nx ny nprocs nxnom0 nynom0 = Reduce.Proceeds a b c d <->
     nxp <> 0 /\ nyp <> 0 /\ nxnom0 <> 0 /\ nynom0 <> 0 /\
     a = nxp /\ b = nyp /\
     CInt.div nx nxp = Some c /\ CInt.div ny nyp = Some d).
Proof.
  intros Hx Hy. unfold Reduce.main, Reduce.guard. rewrite Hx, Hy.
  destruct (Z.eqb_spec nxp 0) as [E1 | E1];
    destruct (Z.eqb_spec nyp 0) as [E2 | E2];
    destruct (Z.eqb_spec nxnom0 0) as [E3 | E3];
    destruct (Z.eqb_spec nynom0 0) as [E4 | E4]; cbn [orb];
    try (split; [split; [tauto | reflexivity] |
                 split; [congruence |
                         intros a b c d; split; [discriminate | tauto]]]).
  destruct (CInt.div nx nxp) as [c0 |], (CInt.div ny nyp) as [d0 |].
  all: split; [split; [discriminate | tauto] |
               split; [discriminate | intros a b c d; split]].
  all: try discriminate.
  all: try (intros (_ & _ & _ & _ & _ & _ & Hc & Hd); discriminate).
  - intros [= <- <- <- <-]. repeat split; assumption.
  - intros (_ & _ & _ & _ & -> & -> & [= ->] & [= ->]). reflexivity.
Qed.

(** One point per axis.  On two processes the grid is 1 x 1: the utility
    aborts when the unassigned variables hold 0 and proceeds when they hold
    5.  On four processes the grid is 2 x 2 and the utility proceeds with
    patches of size zero. *)
Lemma reduce_abort_depends_on_unassigned_sizes_witness :
  Reduce.main 1 1 2 0 0 = Reduce.Aborted 1 /\
  Reduce.main 1 1 2 5 5 = Reduce.Proceeds 1 1 1 1 /\
  Reduce.main 1 1 4 5 5 = Reduce.Proceeds 2 2 0 0.
Proof.
  split; [| split].
  - apply (reduce_abort_depends_on_unassigned_sizes 1 1 2 0 0 1 1);
      [reflexivity | reflexivity | lia].
  - apply (reduce_abort_depends_on_unassigned_sizes 1 1 2 5 5 1 1);
      [reflexivity | reflexivity |].
    repeat split; lia.
  - apply (reduce_abort_depends_on_unassigned_sizes 1 1 4 5 5 2 2);
      [reflexivity | reflexivity |].
    repeat split; lia.
Defined.

(** ** Buffer update *)

(** [rotated_on] depends on the set of cells only. *)
Lemma rotated_on_ext (gny : Z) (P Q : Z -> Z -> Prop) (st0 st : rank_state) :
  (forall i j, P i j <-> Q i j) ->
  rotated_on gny P st0 st -> rotated_on gny Q st0 st.
Proof.
  intros H (Hn & Hlo & Hlc & Hin & Hout).
  repeat (split; [assumption |]). split.
  - intros i j Hq. apply Hin, H, Hq.
  - intros k Hk. apply Hout. intros i j Hp. apply Hk, H, Hp.
Qed.

(** One more cell, not visited before, goes through [update_cell]. *)
Lemma rotated_on_update_cell (ny : Z) (P : Z -> Z -> Prop)
    (st0 st : rank_state) (i j : Z) :
  0 <= j < Solver.gny ny ->
  (forall i' j', P i' j' -> 0 <= j' < Solver.gny ny) ->
  ~ P i j ->
  allocated ny st0 i j ->
  rotated_on (Solver.gny ny) P st0 st ->
  rotated_on (Solver.gny ny) (fun i' j' => P i' j' \/ (i' = i /\ j' = j)) st0
             (Solver.update_cell ny i j st).
Proof.
  intros Hj HP Hnew [Ho Hc] (Hn & Hlo & Hlc & Hin & Hout).
  assert (Hfresh : forall i' j', P i' j' ->
                     cell (Solver.gny ny) i j <> cell (Solver.gny ny) i' j').
  { intros i' j' Hp E. apply cell_inj in E; [| assumption | eauto].
    destruct E as [<- <-]. contradiction. }
  destruct (Hout _ Hfresh) as [_ Hcur].
  unfold rotated_on, Solver.update_cell. cbn [uold1D ucur1D unew1D].
  rewrite !length_wr, Hn, Hcur.
  split; [reflexivity |]. split; [assumption |]. split; [assumption |].
  split.
  - intros i' j' [Hp | [-> ->]].
    + rewrite !rd_wr_other by (apply Hfresh, Hp). apply Hin, Hp.
    + rewrite !rd_wr_same by (rewrite ?Hlo, ?Hlc; assumption). split; reflexivity.
  - intros k Hk.
    assert (Hne : cell (Solver.gny ny) i j <> k).
    { intros E. apply (Hk i j); [right; split; reflexivity | now symmetry]. }
    rewrite !rd_wr_other by assumption.
    apply Hout. intros i' j' Hp. apply Hk. now left.
Qed.

(** The two loops of the update, cell after cell. *)
Lemma update_rotated (nx ny : Z) (st : rank_state) :
  0 <= nx -> 0 <= ny ->
  Solver.gnx nx * Solver.gny ny <= Z.of_nat (length (uold1D st)) ->
  Solver.gnx nx * Solver.gny ny <= Z.of_nat (length (ucur1D st)) ->
  rotated_on (Solver.gny ny)
    (fun i j => 1 <= i <= Solver.nxnom nx /\ 1 <= j <= ny)
    st (Solver.update nx ny st).
Proof.
  intros Hnx Hny Hlo Hlc.
  set (gny := Solver.gny ny).
  pose proof (nxnom_nonneg nx Hnx) as Hnom.
  pose proof (gny_eq ny) as Hgny. pose proof (iye_eq ny) as Hiye.
  assert (Ha : forall i j, 1 <= i <= Solver.nxnom nx -> 1 <= j <= ny ->
                           allocated ny st i j).
  { intros i j Hi Hj.
    split; apply (interior_allocated nx ny); try assumption;
      rewrite ?ixe_eq; lia. }
  unfold Solver.update.
  eapply rotated_on_ext;
    [| apply (for_loop_invariant
                (fun i s => rotated_on gny
                   (fun i' j' => 1 <= i' < i /\ 1 <= j' <= ny) st s))].
  - intros i j. cbv beta. lia.
  - lia.
  - unfold rotated_on. repeat (split; [reflexivity |]).
    split; [intros; lia | intros; split; reflexivity].
  - intros i s Hi Hs.
    eapply rotated_on_ext;
      [| apply (for_loop_invariant
                  (fun j s' => rotated_on gny
                     (fun i' j' => (1 <= i' < i /\ 1 <= j' <= ny)
                                   \/ (i' = i /\ 1 <= j' < j)) st s'))].
    + intros i' j'. cbv beta. lia.
    + lia.
    + eapply rotated_on_ext; [| exact Hs]. intros i' j'. cbv beta. lia.
    + intros j s' Hj Hs'.
      eapply rotated_on_ext;
        [| apply rotated_on_update_cell; [| | | | exact Hs']].
      * intros i' j'. cbv beta. lia.
      * fold gny. lia.
      * intros i' j'. cbv beta. fold gny. lia.
      * cbv beta. lia.
      * apply Ha; lia.
Qed.

(** The buffer update of lines 214 to 220 copies, in every owned interior
    cell, [ucur] into [uold] and [unew] into [ucur]; it changes no ghost
    cell of [uold] or [ucur] and nothing of [unew]. *)
Theorem update_rotates_owned_interior (nx ny : Z) (st : rank_state) :
  0 <= nx -> 0 <= ny ->
  Solver.gnx nx * Solver.gny ny <= Z.of_nat (length (uold1D st)) ->
  Solver.gnx nx * Solver.gny ny <= Z.of_nat (length (ucur1D st)) ->
  let st' := Solver.update nx ny st in
  let gny := Solver.gny ny in
  unew1D st' = unew1D st /\
  (forall i j, 1 <= i <= Solver.nxnom nx -> 1 <= j <= ny ->
     rd (uold1D st') (cell gny i j) = rd (ucur1D st) (cell gny i j) /\
     rd (ucur1D st') (cell gny i j) = rd (unew1D st) (cell gny i j)) /\
  (forall k,
     (forall i j, 1 <= i <= Solver.nxnom nx -> 1 <= j <= ny -> k <> cell gny i j) ->
     rd (uold1D st') k = rd (uold1D st) k /\
     rd (ucur1D st') k = rd (ucur1D st) k).
Proof.
  intros Hnx Hny Hlo Hlc st' gny.
  destruct (update_rotated nx ny st Hnx Hny Hlo Hlc) as (Hn & _ & _ & Hin & Hout).
  split; [exact Hn |]. split.
  - intros i j Hi Hj. apply Hin. split; assumption.
  - intros k Hk. apply Hout. intros i j [Hi Hj]. apply Hk; assumption.
Qed.

(** The update on rank 0 of a 4 x 4 grid with numbered cells. *)
Lemma update_rotates_owned_interior_witness :
  let st := numbered 100 in
  let st' := Solver.update 4 4 st in
  let gny := Solver.gny 4 in
  unew1D st' = unew1D st /\
  (forall i j, 1 <= i <= Solver.nxnom 4 -> 1 <= j <= 4 ->
     rd (uold1D st') (cell gny i j) = rd (ucur1D st) (cell gny i j) /\
     rd (ucur1D st') (cell gny i j) = rd (unew1D st) (cell gny i j)) /\
  (forall k,
     (forall i j, 1 <= i <= Solver.nxnom 4 -> 1 <= j <= 4 ->
                  k <> cell gny i j) ->
     rd (uold1D st') k = rd (uold1D st) k /\
     rd (ucur1D st') k = rd (ucur1D st) k).
Proof.
  apply (update_rotates_owned_interior 4 4 (numbered 100)); by_evaluation.
Defined.

(** The recurrence followed by the buffer update: in every owned interior
    cell [uold] ends with what [ucur] held and [ucur] with the value of the
    recurrence of line 208 on the old [uold] and [ucur], converted to
    [int]; the ghost cells of both keep what they held. *)
Theorem local_step_advances_levels (nx ny nsteps : Z) (st : rank_state) :
  0 <= nx -> 0 <= ny ->
  Solver.gnx nx * Solver.gny ny <= Z.of_nat (length (uold1D st)) ->
  Solver.gnx nx * Solver.gny ny <= Z.of_nat (length (ucur1D st)) ->
  Solver.gnx nx * Solver.gny ny <= Z.of_nat (length (unew1D st)) ->
  let st' := Solver.update nx ny (Solver.TimeStepper nx ny nsteps st) in
  let gny := Solver.gny ny in
  (forall i j, 1 <= i <= Solver.nxnom nx -> 1 <= j <= ny ->
     rd (uold1D st') (cell gny i j) = rd (ucur1D st) (cell gny i j) /\
     rd (ucur1D st') (cell gny i j)
     = CDouble.to_int
         (Solver.stencil_value nx ny nsteps (uold1D st) (ucur1D st) i j)) /\
  (forall k,
     (forall i j, 1 <= i <= Solver.nxnom nx -> 1 <= j <= ny -> k <> cell gny i j) ->
     rd (uold1D st') k = rd (uold1D st) k /\
     rd (ucur1D st') k = rd (ucur1D st) k).
Proof.
  intros Hnx Hny Hlo Hlc Hln st' gny.
  pose proof (nxnom_nonneg nx Hnx) as Hnom.
  pose proof (gny_eq ny) as Hgny. pose proof (iye_eq ny) as Hiye.
  set (st1 := Solver.TimeStepper nx ny nsteps st) in *.
  assert (Eo : uold1D st1 = uold1D st) by reflexivity.
  assert (Ec : ucur1D st1 = ucur1D st) by reflexivity.
  assert (Hin : forall i j, 1 <= i <= Solver.nxnom nx -> 1 <= j <= ny ->
            rd (unew1D st1) (cell gny i j)
            = CDouble.to_int
                (Solver.stencil_value nx ny nsteps (uold1D st) (ucur1D st) i j)).
  { destruct (filled_on_loops gny
                (Solver.stencil_value nx ny nsteps (uold1D st) (ucur1D st))
                (Solver.nxnom nx) ny (unew1D st)) as (_ & H & _).
    - exact Hnom.
    - subst gny. lia.
    - intros i j Hi Hj. apply (interior_allocated nx ny); try assumption.
      + rewrite ixe_eq. lia.
      + lia.
    - intros i j Hi Hj. apply H. split; assumption. }
  destruct (update_rotated nx ny st1 Hnx Hny) as (_ & _ & _ & Uin & Uout).
  - rewrite Eo. exact Hlo.
  - rewrite Ec. exact Hlc.
  - fold st' gny in Uin, Uout. rewrite Eo, Ec in *. split.
    + intros i j Hi Hj. destruct (Uin i j (conj Hi Hj)) as [-> ->].
      split; [reflexivity | apply Hin; assumption].
    + intros k Hk. apply Uout. intros i j [Hi Hj]. apply Hk; assumption.
Qed.

(** The same grid through recurrence and update. *)
Lemma local_step_advances_levels_witness :
  let st := numbered 100 in
  let st' := Solver.update 4 4 (Solver.TimeStepper 4 4 10 st) in
  let gny := Solver.gny 4 in
  (forall i j, 1 <= i <= Solver.nxnom 4 -> 1 <= j <= 4 ->
     rd (uold1D st') (cell gny i j) = rd (ucur1D st) (cell gny i j) /\
     rd (ucur1D st') (cell gny i j)
     = CDouble.to_int
         (Solver.stencil_value 4 4 10 (uold1D st) (ucur1D st) i j)) /\
  (forall k,
     (forall i j, 1 <= i <= Solver.nxnom 4 -> 1 <= j <= 4 ->
                  k <> cell gny i j) ->
     rd (uold1D st') k = rd (uold1D st) k /\
     rd (ucur1D st') k = rd (ucur1D st) k).
Proof.
  apply (local_step_advances_levels 4 4 10 (numbered 100)); by_evaluation.
Defined.

(** ** Initializer, cell by cell *)

(** A loop whose body does nothing does nothing. *)
Lemma for_loop_skip {A : Type} (lo hi : Z) (s : A) :
  for_loop lo hi (fun _ t => t) s = s.
Proof.
  unfold for_loop. induction (seqZ lo (hi + 1 - lo)) as [| i l IH] in s |- *.
  - reflexivity.
  - simpl. apply IH.
Qed.

(** Two patches of [nxnom] columns fit into [nx] columns. *)
Lemma nxnom_double (nx : Z) : 0 <= nx -> 2 * Solver.nxnom nx <= nx.
Proof.
  intros H. unfold Solver.nxnom, Decomp.nxnom, Decomp.nxprocs, Solver.nprocs.
  pose proof (Z.quot_rem nx 2 ltac:(lia)).
  pose proof (Z.rem_nonneg nx 2 ltac:(lia) H). lia.
Qed.

(** On either worker the initialisation stores, in every local cell
    [(li, j)] with [li] in [1..nxnom] and [j] in [1..ny], the sample taken
    at the global column [gixs + li - 1], converted to [int]; it writes no
    ghost cell, no other cell of [uold], and nothing of [ucur] and
    [unew]. *)
Theorem initializer_writes_owned_interior (nx ny : Z) (cexp : float -> float)
    (worker : Z) (st : rank_state) :
  0 <= nx -> 0 <= ny -> 0 <= worker <= 1 ->
  Solver.gnx nx * Solver.gny ny <= Z.of_nat (length (uold1D st)) ->
  let st' := Solver.Initializer nx ny cexp worker st in
  let gny := Solver.gny ny in
  let gixs := Decomp.gixs nx 2 worker in
  ucur1D st' = ucur1D st /\
  unew1D st' = unew1D st /\
  (forall li j, 1 <= li <= Solver.nxnom nx -> 1 <= j <= ny ->
     rd (uold1D st') (cell gny li j)
     = CDouble.to_int (Solver.gauss nx ny cexp (gixs + li - 1) j)) /\
  (forall k,
     (forall li j, 1 <= li <= Solver.nxnom nx -> 1 <= j <= ny -> k <> cell gny li j) ->
     rd (uold1D st') k = rd (uold1D st) k).
Proof.
  intros Hnx Hny Hw Hlen st' gny gixs.
  pose proof (nxnom_nonneg nx Hnx) as Hnom.
  pose proof (nxnom_double nx Hnx) as Hdbl.
  pose proof (gny_eq ny) as Hgny. pose proof (iye_eq ny) as Hiye.
  set (n := Solver.nxnom nx) in *.
  assert (Hgixs : gixs = worker * n + 1) by reflexivity.
  assert (Hown : forall i, Decomp.owns nx 2 worker i = true <->
                           gixs <= i <= gixs + n - 1).
  { intros i. unfold Decomp.owns, Decomp.gixe. fold gixs.
    change (Decomp.nxnom nx 2) with n. lia. }
  set (F := fun li j => Solver.gauss nx ny cexp (gixs + li - 1) j).
  assert (H : filled_on gny F (fun li j => 1 <= li <= n /\ 1 <= j <= ny)
                (uold1D st) (uold1D st')).
  { subst st'. unfold Solver.Initializer. cbn [set_buf uold1D].
    eapply filled_on_ext;
      [| apply (for_loop_invariant
                  (fun i b => filled_on gny F
                     (fun li j => (1 <= li <= n /\ gixs + li - 1 < i)
                                  /\ 1 <= j <= ny) (uold1D st) b))].
    - intros li j. cbv beta. nia.
    - lia.
    - split; [reflexivity |]. split; [intros; nia | reflexivity].
    - intros i b Hi Hb. unfold Solver.init_cell, Solver.nprocs.
      destruct (Decomp.owns nx 2 worker i) eqn:Ho.
      + apply Hown in Ho.
        eapply filled_on_ext;
          [| apply (for_loop_invariant
                      (fun j b' => filled_on gny F
                         (fun li j' => ((1 <= li <= n /\ gixs + li - 1 < i)
                                        /\ 1 <= j' <= ny)
                                       \/ (li = i - gixs + 1 /\ 1 <= j' < j))
                         (uold1D st) b'))].
        * intros li j. cbv beta. lia.
        * lia.
        * eapply filled_on_ext; [| exact Hb]. intros li j. cbv beta. lia.
        * intros j b' Hj Hb'. cbv zeta.
          replace (Solver.gauss nx ny cexp i j) with (F (i - gixs + 1) j)
            by (unfold F; f_equal; lia).
          fold gixs. change (Solver.gny ny) with gny.
          eapply filled_on_ext;
            [| refine (filled_on_store gny F _ (uold1D st) b' (i - gixs + 1)
                         j _ _ _ Hb')].
          -- intros li j'. cbv beta. lia.
          -- lia.
          -- intros li j'. cbv beta. lia.
          -- apply (interior_allocated nx ny); try assumption;
               rewrite ?ixe_eq; fold n; lia.
      + assert (Hnot : ~ (gixs <= i <= gixs + n - 1)).
        { intros Hc. apply Hown in Hc. congruence. }
        rewrite for_loop_skip.
        eapply filled_on_ext; [| exact Hb]. intros li j. cbv beta. lia. }
  destruct H as (_ & Hin & Hout).
  split; [reflexivity |]. split; [reflexivity |]. split.
  - intros li j Hi Hj. apply Hin. split; assumption.
  - intros k Hk. apply Hout. intros li j [Hi Hj]. apply Hk; assumption.
Qed.

(** Worker 1 of a 4 x 4 grid with numbered cells and glibc's [exp]. *)
Lemma initializer_writes_owned_interior_witness :
  let st := numbered 100 in
  let st' := Solver.Initializer 4 4 exp_4x4 1 st in
  let gny := Solver.gny 4 in
  let gixs := Decomp.gixs 4 2 1 in
  ucur1D st' = ucur1D st /\
  unew1D st' = unew1D st /\
  (forall li j, 1 <= li <= Solver.nxnom 4 -> 1 <= j <= 4 ->
     rd (uold1D st') (cell gny li j)
     = CDouble.to_int (Solver.gauss 4 4 exp_4x4 (gixs + li - 1) j)) /\
  (forall k,
     (forall li j, 1 <= li <= Solver.nxnom 4 -> 1 <= j <= 4 ->
                   k <> cell gny li j) ->
     rd (uold1D st') k = rd (uold1D st) k).
Proof.
  apply (initializer_writes_owned_interior 4 4 exp_4x4 1 (numbered 100));
    first [lia | by_evaluation].
Defined.

(** For every odd [nx] the two workers own the columns [1..nx-1], each
    column once, and neither owns the last column [nx]. *)
Theorem decomposition_odd_nx_drops_last_column (nx : Z) :
  0 <= nx -> Z.odd nx = true ->
  Decomp.owns nx 2 0 nx = false /\
  Decomp.owns nx 2 1 nx = false /\
  (forall i, Decomp.owns nx 2 0 i && Decomp.owns nx 2 1 i = false) /\
  (forall i, 1 <= i <= nx - 1 <->
             Decomp.owns nx 2 0 i || Decomp.owns nx 2 1 i = true).
Proof.
  intros Hnx Hodd.
  apply Z.odd_spec in Hodd. destruct Hodd as [h ->].
  unfold Decomp.owns, Decomp.gixe, Decomp.gixs, Decomp.nxnom, Decomp.nxprocs.
  replace (Z.quot (2 * h + 1) 2) with h.
  - repeat split; intros; lia.
  - apply Z.quot_unique with (r := 1); lia.
Qed.

(** Five columns: the workers own 1..2 and 3..4, column 5 is nobody's. *)
Lemma decomposition_odd_nx_drops_last_column_witness :
  Decomp.owns 5 2 0 5 = false /\
  Decomp.owns 5 2 1 5 = false /\
  (forall i, Decomp.owns 5 2 0 i && Decomp.owns 5 2 1 i = false) /\
  (forall i, 1 <= i <= 5 - 1 <->
             Decomp.owns 5 2 0 i || Decomp.owns 5 2 1 i = true).
Proof.
  apply (decomposition_odd_nx_drops_last_column 5); [lia | reflexivity].
Defined.

(** ** What an exchange touches *)

(** A message of [count] elements holds at most [2 * count] cells. *)
Lemma length_payload_le (b : block) (off count : Z) :
  0 <= count -> Z.of_nat (length (Mpi.payload b off count)) <= 2 * count.
Proof.
  intros Hc. unfold Mpi.payload. rewrite length_take.
  pose proof (cells_of_eq count Hc). lia.
Qed.

(** Replacing one block leaves the two others. *)
Lemma get_set_buf_other (b b' : buffer) (v : block) (st : rank_state) :
  b <> b' -> get_buf b' (set_buf b v st) = get_buf b' st.
Proof. destruct b, b'; intros H; try reflexivity; contradiction. Qed.

(** One exchange of [buf] touches nothing but [buf]: the two other blocks
    of both ranks are kept, no block changes its length, rank 0's block
    changes at most in the [2 * ny] cells from [&buf[ixe][0]] on, and rank
    1's block at most in its first [2 * ny] cells. *)
Theorem halo_exchange_frame (nx ny : Z) (buf : buffer) (s0 s1 : rank_state) :
  0 <= nx -> 0 <= ny ->
  let w' := Mpi.halo_exchange nx ny buf (s0, s1) in
  let first := cell (Solver.gny ny) (Solver.ixe nx) 0 in
  (forall other, other <> buf ->
     get_buf other (fst w') = get_buf other s0 /\
     get_buf other (snd w') = get_buf other s1) /\
  length (get_buf buf (fst w')) = length (get_buf buf s0) /\
  length (get_buf buf (snd w')) = length (get_buf buf s1) /\
  (forall k, k < first \/ first + 2 * ny <= k ->
     rd (get_buf buf (fst w')) k = rd (get_buf buf s0) k) /\
  (forall k, 2 * ny <= k ->
     rd (get_buf buf (snd w')) k = rd (get_buf buf s1) k).
Proof.
  intros Hnx Hny w' first.
  pose proof (nxnom_nonneg nx Hnx) as Hnom.
  pose proof (gny_eq ny) as Hgny. pose proof (ixe_eq nx) as Hixe.
  assert (Hfirst : 0 <= first).
  { subst first. unfold cell. rewrite Hgny, Hixe. nia. }
  subst w'. unfold Mpi.halo_exchange, Mpi.transfer. cbn [fst snd].
  change (Decomp.gny ny) with (Solver.gny ny).
  change (Decomp.ixe nx 2) with (Solver.ixe nx).
  fold first.
  split; [| split; [| split; [| split]]].
  - intros other Ho. rewrite !get_set_buf_other by congruence. split; reflexivity.
  - rewrite get_set_buf. apply length_deliver.
  - rewrite get_set_buf. apply length_deliver.
  - intros k Hk. rewrite get_set_buf.
    apply rd_deliver_outside; [assumption |].
    match goal with |- context [length (Mpi.payload ?b ?o ny)] =>
      pose proof (length_payload_le b o ny Hny) end.
    lia.
  - intros k Hk. rewrite get_set_buf.
    assert (E0 : cell (Solver.gny ny) 0 0 = 0) by (unfold cell; lia).
    rewrite E0.
    apply rd_deliver_outside; [lia |].
    match goal with |- context [length (Mpi.payload ?b ?o ny)] =>
      pose proof (length_payload_le b o ny Hny) end.
    lia.
Qed.

(** The frame of an exchange of [ucur] on a 4 x 4 grid with numbered
    cells. *)
Lemma halo_exchange_frame_witness :
  let w' := Mpi.halo_exchange 4 4 Ucur (numbered 100, numbered 200) in
  let first := cell (Solver.gny 4) (Solver.ixe 4) 0 in
  (forall other, other <> Ucur ->
     get_buf other (fst w') = get_buf other (numbered 100) /\
     get_buf other (snd w') = get_buf other (numbered 200)) /\
  length (get_buf Ucur (fst w')) = length (get_buf Ucur (numbered 100)) /\
  length (get_buf Ucur (snd w')) = length (get_buf Ucur (numbered 200)) /\
  (forall k, k < first \/ first + 2 * 4 <= k ->
     rd (get_buf Ucur (fst w')) k = rd (get_buf Ucur (numbered 100)) k) /\
  (forall k, 2 * 4 <= k ->
     rd (get_buf Ucur (snd w')) k = rd (get_buf Ucur (numbered 200)) k).
Proof.
  apply (halo_exchange_frame 4 4 Ucur (numbered 100) (numbered 200)); lia.
Defined.

(** For [ny >= 2] and blocks of the allocated size, an exchange overwrites
    the rows [0..ny-3] of rank 1's first interior column with the ghost
    column [ixe] of rank 0: the [2 * ny] cells received at [&buf[0][0]] run
    over the end of column 0. *)
Theorem halo_exchange_overwrites_rank1_interior
    (nx ny : Z) (buf : buffer) (s0 s1 : rank_state) :
  0 <= nx -> 2 <= ny ->
  block_cells (Solver.gnx nx * Solver.gny ny) <= Z.of_nat (length (get_buf buf s0)) ->
  block_cells (Solver.gnx nx * Solver.gny ny) <= Z.of_nat (length (get_buf buf s1)) ->
  let w' := Mpi.halo_exchange nx ny buf (s0, s1) in
  let gny := Solver.gny ny in
  forall r, 0 <= r < ny - 2 ->
    rd (get_buf buf (snd w')) (cell gny 1 r)
    = rd (get_buf buf s0) (cell gny (Solver.ixe nx) r).
Proof.
  intros Hnx Hny Hl0 Hl1 w' gny r Hr.
  pose proof (nxnom_nonneg nx Hnx) as Hnom.
  pose proof (gny_eq ny) as Hgny. pose proof (ixe_eq nx) as Hixe.
  pose proof (ixem_eq nx) as Hixem.
  assert (Hgnx : Solver.gnx nx = Solver.ixe nx + 1).
  { unfold Solver.gnx, Decomp.gnx, Decomp.ixs. fold (Solver.ixe nx). lia. }
  assert (Hcells : forall z, block_cells z = 2 * z).
  { intros z. unfold block_cells, Abi.sizeof_ptr, Abi.sizeof_int.
    replace (z * 8) with (2 * z * 4) by lia. apply Z.div_mul. lia. }
  rewrite Hcells in Hl0, Hl1.
  subst w'. unfold Mpi.halo_exchange, Mpi.transfer. cbn [fst snd].
  change (Decomp.gny ny) with (Solver.gny ny).
  change (Decomp.ixem nx 2) with (Solver.ixem nx).
  rewrite !get_set_buf.
  set (b0 := get_buf buf s0) in *. set (b1 := get_buf buf s1) in *.
  unfold cell. subst gny. rewrite Hgny, Hgnx, Hixe in *. rewrite Hixem.
  set (n := Solver.nxnom nx) in *.
  assert (Hn2 : 0 <= n * (ny + 2)) by nia.
  set (msg0 := Mpi.payload b0 (n * (ny + 2) + 0) ny).
  assert (Hm0 : Z.of_nat (length msg0) = 2 * ny).
  { apply length_payload; lia. }
  rewrite rd_deliver_inside by lia.
  subst msg0. rewrite payload_lookup by lia.
  f_equal. lia.
Qed.

(** Row 1 of a 4 x 4 grid with numbered cells. *)
Lemma halo_exchange_overwrites_rank1_interior_witness :
  let w' := Mpi.halo_exchange 4 4 Uold (numbered 100, numbered 200) in
  let gny := Solver.gny 4 in
  rd (get_buf Uold (snd w')) (cell gny 1 1)
  = rd (get_buf Uold (numbered 100)) (cell gny (Solver.ixe 4) 1).
Proof.
  apply (halo_exchange_overwrites_rank1_interior 4 4 Uold
           (numbered 100) (numbered 200));
    first [lia | by_evaluation].
Defined.

(** ** The calls of a whole run *)

(** The four calls at the head of a pass pair up and leave the rest of both
    call sequences to run. *)
Lemma run_step_exchange_prefix (nx ny : Z) (fuel : nat) (q0 q1 : list Mpi.op)
    (s0 s1 : rank_state) :
  exists s0' s1',
    Mpi.run (4 + fuel)
      (Mpi.Config (Mpi.step_exchange_ops nx ny 0 ++ q0) s0
                  (Mpi.step_exchange_ops nx ny 1 ++ q1) s1)
    = Mpi.run fuel (Mpi.Config q0 s0' q1 s1').
Proof.
  unfold Mpi.step_exchange_ops, Mpi.exchange_ops.
  do 2 eexists.
  cbn [Z.eqb app Nat.add].
  repeat mpi_step. reflexivity.
Qed.

(** The same for the two calls of a single exchange. *)
Lemma run_exchange_prefix (nx ny : Z) (buf : buffer) (fuel : nat)
    (q0 q1 : list Mpi.op) (s0 s1 : rank_state) :
  exists s0' s1',
    Mpi.run (2 + fuel)
      (Mpi.Config (Mpi.exchange_ops nx ny 0 buf ++ q0) s0
                  (Mpi.exchange_ops nx ny 1 buf ++ q1) s1)
    = Mpi.run fuel (Mpi.Config q0 s0' q1 s1').
Proof.
  unfold Mpi.exchange_ops.
  do 2 eexists.
  cbn [Z.eqb app Nat.add].
  repeat mpi_step. reflexivity.
Qed.

(** Any number of passes runs to the end. *)
Lemma run_passes (nx ny : Z) (n : nat) (s0 s1 : rank_state) :
  exists c,
    Mpi.run (4 * n)
      (Mpi.Config (concat (replicate n (Mpi.step_exchange_ops nx ny 0))) s0
                  (concat (replicate n (Mpi.step_exchange_ops nx ny 1))) s1)
    = Some c /\ Mpi.prog0 c = [] /\ Mpi.prog1 c = [].
Proof.
  revert s0 s1. induction n as [| n IH]; intros s0 s1.
  - eexists. split; [reflexivity |]. split; reflexivity.
  - replace (4 * S n)%nat with (4 + 4 * n)%nat by lia.
    cbn [replicate concat].
    destruct (run_step_exchange_prefix nx ny (4 * n)
                (concat (replicate n (Mpi.step_exchange_ops nx ny 0)))
                (concat (replicate n (Mpi.step_exchange_ops nx ny 1)))
                s0 s1) as (s0' & s1' & ->).
    apply IH.
Qed.

(** Over a whole run the calls of the two ranks pair up one after the other
    on the synchronous transport: after [2 + 4 * (nsteps + 1)] completed
    pairs neither rank has a call left, whatever the blocks hold at the
    start. *)
Theorem whole_run_calls_pair_up (nx ny nsteps : Z) (s0 s1 : rank_state) :
  exists c,
    Mpi.run (2 + 4 * Z.to_nat (nsteps + 1))
      (Mpi.Config (mpi_calls nx ny nsteps 0) s0 (mpi_calls nx ny nsteps 1) s1)
    = Some c /\ Mpi.prog0 c = [] /\ Mpi.prog1 c = [].
Proof.
  unfold mpi_calls.
  destruct (run_exchange_prefix nx ny Uold (4 * Z.to_nat (nsteps + 1))
              (concat (replicate (Z.to_nat (nsteps + 1))
                         (Mpi.step_exchange_ops nx ny 0)))
              (concat (replicate (Z.to_nat (nsteps + 1))
                         (Mpi.step_exchange_ops nx ny 1)))
              s0 s1) as (s0' & s1' & ->).
  apply run_passes.
Qed.

(** ** Nothing is written past the end of a block *)

(** A loop keeps a reflexive and transitive relation that its body keeps. *)
Lemma for_loop_preserves {A : Type} (R : A -> A -> Prop)
    (lo hi : Z) (body : Z -> A -> A) (s : A) :
  (forall a, R a a) ->
  (forall a b c, R a b -> R b c -> R a c) ->
  (forall i t, lo <= i <= hi -> R t (body i t)) ->
  R s (for_loop lo hi body s).
Proof.
  intros Hrefl Htrans Hbody.
  destruct (Z_lt_le_dec hi lo) as [Hlt | Hle].
  - rewrite for_loop_empty by assumption. apply Hrefl.
  - apply (for_loop_invariant (fun _ t => R s t)); [lia | apply Hrefl |].
    intros i t Hi Ht. eapply Htrans; [exact Ht | now apply Hbody].
Qed.

Lemma kept_from_refl (n : Z) (b : block) : kept_from n b b.
Proof. intros k _. reflexivity. Qed.

Lemma kept_from_trans (n : Z) (a b c : block) :
  kept_from n a b -> kept_from n b c -> kept_from n a c.
Proof. intros H1 H2 k Hk. rewrite H2, H1 by assumption. reflexivity. Qed.

Lemma tail_kept_refl (n : Z) (st : rank_state) : tail_kept n st st.
Proof. intros buf. apply kept_from_refl. Qed.

Lemma tail_kept_trans (n : Z) (a b c : rank_state) :
  tail_kept n a b -> tail_kept n b c -> tail_kept n a c.
Proof. intros H1 H2 buf. eapply kept_from_trans; [apply H1 | apply H2]. Qed.

(** A write below [n]. *)
Lemma kept_from_wr (n : Z) (b : block) (k v : Z) :
  k < n -> kept_from n b (wr b k v).
Proof. intros Hk k' Hk'. apply rd_wr_other. lia. Qed.

Lemma tail_kept_set_buf (n : Z) (buf : buffer) (b : block) (st : rank_state) :
  kept_from n (get_buf buf st) b -> tail_kept n st (set_buf buf b st).
Proof.
  intros H other. destruct buf, other; cbn; first [exact H | apply kept_from_refl].
Qed.

(** A block of [z] pointer-sized elements holds [2 * z] cells of type [int]. *)
Lemma block_cells_double (z : Z) : block_cells z = 2 * z.
Proof.
  unfold block_cells, Abi.sizeof_ptr, Abi.sizeof_int.
  replace (z * 8) with (2 * z * 4) by lia. apply Z.div_mul. lia.
Qed.

Lemma gnx_eq (nx : Z) : Solver.gnx nx = Solver.nxnom nx + 2.
Proof.
  unfold Solver.gnx, Decomp.gnx, Decomp.ixs, Decomp.ixe.
  fold (Solver.nxnom nx). unfold Solver.nxnom, Solver.nprocs. lia.
Qed.

(** Every cell of the field lies below the end of the block. *)
Lemma cell_below_block (nx ny i j : Z) :
  0 <= nx -> 0 <= ny ->
  0 <= i <= Solver.ixe nx -> 0 <= j <= Solver.iye ny ->
  cell (Solver.gny ny) i j < block_cells (Solver.gnx nx * Solver.gny ny).
Proof.
  intros Hnx Hny Hi Hj.
  pose proof (nxnom_nonneg nx Hnx).
  rewrite block_cells_double, gnx_eq, gny_eq.
  rewrite ixe_eq in Hi. rewrite iye_eq in Hj. unfold cell.
  assert (i * (ny + 2) <= (Solver.nxnom nx + 1) * (ny + 2))
    by (apply Z.mul_le_mono_nonneg_r; lia).
  nia.
Qed.

Lemma Initializer_tail (nx ny : Z) (cexp : float -> float) (worker : Z)
    (st : rank_state) :
  0 <= nx -> 0 <= ny ->
  tail_kept (block_cells (Solver.gnx nx * Solver.gny ny)) st
            (Solver.Initializer nx ny cexp worker st).
Proof.
  intros Hnx Hny. unfold Solver.Initializer.
  apply tail_kept_set_buf. cbn [get_buf].
  apply (for_loop_preserves (kept_from _));
    [apply kept_from_refl | apply kept_from_trans |].
  intros i b Hi.
  apply (for_loop_preserves (kept_from _));
    [apply kept_from_refl | apply kept_from_trans |].
  intros j b' Hj. unfold Solver.init_cell, Solver.nprocs.
  destruct (Decomp.owns nx 2 worker i) eqn:Ho; [| apply kept_from_refl].
  cbv zeta. unfold store. apply kept_from_wr.
  apply cell_below_block; try assumption.
  - unfold Decomp.owns, Decomp.gixe in Ho.
    apply andb_prop in Ho as [H1 H2].
    apply Z.leb_le in H1, H2. rewrite ixe_eq.
    fold (Solver.nxnom nx) in *.
    change (Decomp.nxnom nx 2) with (Solver.nxnom nx) in H2. lia.
  - rewrite iye_eq. lia.
Qed.

(** The loops over the owned interior cells that store into one block. *)
Lemma interior_loops_tail (nx ny m : Z) (f : Z -> Z -> block -> float) (b : block) :
  0 <= nx -> 0 <= ny -> m <= ny ->
  kept_from (block_cells (Solver.gnx nx * Solver.gny ny)) b
    (for_loop 1 (Solver.nxnom nx) (fun i => for_loop 1 m (fun j u =>
       store (Solver.gny ny) u i j (f i j u))) b).
Proof.
  intros Hnx Hny Hm.
  apply (for_loop_preserves (kept_from _));
    [apply kept_from_refl | apply kept_from_trans |].
  intros i b1 Hi.
  apply (for_loop_preserves (kept_from _));
    [apply kept_from_refl | apply kept_from_trans |].
  intros j b2 Hj. unfold store. apply kept_from_wr.
  apply cell_below_block; try assumption.
  - rewrite ixe_eq. lia.
  - rewrite iye_eq. lia.
Qed.

Lemma bootstrap_tail (nx ny nsteps : Z) (st : rank_state) :
  0 <= nx -> 0 <= ny ->
  tail_kept (block_cells (Solver.gnx nx * Solver.gny ny)) st
            (Solver.bootstrap nx ny nsteps st).
Proof.
  intros Hnx Hny. unfold Solver.bootstrap.
  apply tail_kept_set_buf. cbn [get_buf].
  apply (interior_loops_tail nx ny (Solver.nynom ny)
           (fun i j _ => Solver.bootstrap_value nx ny nsteps (uold1D st) i j));
    try assumption.
  unfold Solver.nynom, Decomp.nynom, Decomp.nyprocs. rewrite Z.quot_1_r. lia.
Qed.

Lemma TimeStepper_tail (nx ny nsteps : Z) (st : rank_state) :
  0 <= nx -> 0 <= ny ->
  tail_kept (block_cells (Solver.gnx nx * Solver.gny ny)) st
            (Solver.TimeStepper nx ny nsteps st).
Proof.
  intros Hnx Hny. unfold Solver.TimeStepper.
  apply tail_kept_set_buf. cbn [get_buf].
  apply (interior_loops_tail nx ny ny
           (fun i j _ =>
              Solver.stencil_value nx ny nsteps (uold1D st) (ucur1D st) i j));
    try assumption.
  lia.
Qed.

Lemma update_tail (nx ny : Z) (st : rank_state) :
  0 <= nx -> 0 <= ny ->
  tail_kept (block_cells (Solver.gnx nx * Solver.gny ny)) st
            (Solver.update nx ny st).
Proof.
  intros Hnx Hny. unfold Solver.update.
  apply (for_loop_preserves (tail_kept _));
    [apply tail_kept_refl | apply tail_kept_trans |].
  intros i s1 Hi.
  apply (for_loop_preserves (tail_kept _));
    [apply tail_kept_refl | apply tail_kept_trans |].
  intros j s2 Hj.
  assert (Hc : cell (Solver.gny ny) i j
               < block_cells (Solver.gnx nx * Solver.gny ny)).
  { apply cell_below_block; try assumption.
    - rewrite ixe_eq. lia.
    - rewrite iye_eq. lia. }
  unfold Solver.update_cell. intros buf.
  destruct buf; cbn [get_buf uold1D ucur1D unew1D];
    first [apply kept_from_wr; exact Hc | apply kept_from_refl].
Qed.

Lemma zero_both_tail (nx ny i j : Z) (st : rank_state) :
  0 <= nx -> 0 <= ny ->
  0 <= i <= Solver.ixe nx -> 0 <= j <= Solver.iye ny ->
  tail_kept (block_cells (Solver.gnx nx * Solver.gny ny)) st
            (Solver.zero_both ny i j st).
Proof.
  intros Hnx Hny Hi Hj buf.
  pose proof (cell_below_block nx ny i j Hnx Hny Hi Hj) as Hc.
  unfold Solver.zero_both, store.
  destruct buf; cbn [get_buf uold1D ucur1D unew1D];
    first [apply kept_from_wr; exact Hc | apply kept_from_refl].
Qed.

Lemma BoundaryApplier_tail (nx ny worker : Z) (st : rank_state) :
  0 <= nx -> 0 <= ny ->
  tail_kept (block_cells (Solver.gnx nx * Solver.gny ny)) st
            (Solver.BoundaryApplier nx ny worker st).
Proof.
  intros Hnx Hny.
  pose proof (nxnom_nonneg nx Hnx) as Hnom.
  pose proof (ixe_eq nx) as Hixe. pose proof (iye_eq ny) as Hiye.
  pose proof (ixem_eq nx) as Hixem. pose proof (iyem_eq ny) as Hiyem.
  assert (Hz : forall i j s, 0 <= i <= Solver.ixe nx -> 0 <= j <= Solver.iye ny ->
             tail_kept (block_cells (Solver.gnx nx * Solver.gny ny)) s
                       (Solver.zero_both ny i j s)).
  { intros i j s Hi Hj. now apply zero_both_tail. }
  assert (Hl : forall lo hi (body : Z -> rank_state -> rank_state) s,
             (forall i t, lo <= i <= hi ->
                tail_kept (block_cells (Solver.gnx nx * Solver.gny ny)) t (body i t)) ->
             tail_kept (block_cells (Solver.gnx nx * Solver.gny ny)) s
                       (for_loop lo hi body s)).
  { intros lo hi body s Hb.
    apply (for_loop_preserves (tail_kept _));
      [apply tail_kept_refl | apply tail_kept_trans | exact Hb]. }
  unfold Solver.BoundaryApplier.
  destruct (worker =? 0); cbv zeta.
  all: repeat (first
    [ eapply tail_kept_trans;
      [| first [ apply Hl; intros; apply Hz; lia | apply Hz; lia ] ]
    | first [ apply Hl; intros; apply Hz; lia | apply Hz; lia ] ]).
  all: apply tail_kept_refl.
Qed.

(** The [2 * ny] cells a receive writes end before the end of the block. *)
Lemma halo_exchange_tail (nx ny : Z) (buf : buffer) (w : TwoRank.world) :
  0 <= nx -> 0 <= ny ->
  tail_kept (block_cells (Solver.gnx nx * Solver.gny ny)) (fst w)
            (fst (Mpi.halo_exchange nx ny buf w)) /\
  tail_kept (block_cells (Solver.gnx nx * Solver.gny ny)) (snd w)
            (snd (Mpi.halo_exchange nx ny buf w)).
Proof.
  intros Hnx Hny.
  pose proof (nxnom_nonneg nx Hnx) as Hnom.
  pose proof (gny_eq ny) as Hgny. pose proof (ixe_eq nx) as Hixe.
  pose proof (gnx_eq nx) as Hgnx.
  unfold Mpi.halo_exchange, Mpi.transfer. cbn [fst snd].
  change (Decomp.gny ny) with (Solver.gny ny).
  change (Decomp.ixe nx 2) with (Solver.ixe nx).
  set (n := Solver.nxnom nx) in *.
  assert (Hp : 0 <= n * ny) by (apply Z.mul_nonneg_nonneg; assumption).
  assert (E1 : (n + 1) * (ny + 2) = n * ny + 2 * n + ny + 2) by ring.
  assert (E2 : (n + 2) * (ny + 2) = n * ny + 2 * n + 2 * ny + 4) by ring.
  split; apply tail_kept_set_buf; intros k Hk;
    rewrite block_cells_double, Hgnx, Hgny, E2 in Hk;
    match goal with |- context [Mpi.deliver _ _ (Mpi.payload ?b ?o ny)] =>
      pose proof (length_payload_le b o ny Hny);
      set (msg := Mpi.payload b o ny) in *
    end.
  - apply rd_deliver_outside; unfold cell; rewrite Hgny, Hixe, E1; lia.
  - apply rd_deliver_outside; unfold cell; rewrite Hgny; lia.
Qed.

Lemma startup_tail (nx ny nsteps : Z) (cexp : float -> float) (heap : TwoRank.world) :
  0 <= nx -> 0 <= ny ->
  let n := block_cells (Solver.gnx nx * Solver.gny ny) in
  tail_kept n (fst heap) (fst (TwoRank.startup nx ny nsteps cexp heap)) /\
  tail_kept n (snd heap) (snd (TwoRank.startup nx ny nsteps cexp heap)).
Proof.
  intros Hnx Hny n. unfold TwoRank.startup, TwoRank.both. cbn [fst snd].
  set (w1 := (Solver.Initializer nx ny cexp 0 (fst heap),
              Solver.Initializer nx ny cexp 1 (snd heap))).
  destruct (halo_exchange_tail nx ny Uold w1 Hnx Hny) as [H0 H1].
  split.
  - eapply tail_kept_trans; [| apply bootstrap_tail; assumption].
    eapply tail_kept_trans; [| exact H0].
    apply Initializer_tail; assumption.
  - eapply tail_kept_trans; [| apply bootstrap_tail; assumption].
    eapply tail_kept_trans; [| exact H1].
    apply Initializer_tail; assumption.
Qed.

Lemma time_step_tail (nx ny nsteps : Z) (w : TwoRank.world) :
  0 <= nx -> 0 <= ny ->
  let n := block_cells (Solver.gnx nx * Solver.gny ny) in
  tail_kept n (fst w) (fst (TwoRank.time_step nx ny nsteps w)) /\
  tail_kept n (snd w) (snd (TwoRank.time_step nx ny nsteps w)).
Proof.
  intros Hnx Hny n. unfold TwoRank.time_step, TwoRank.both. cbn [fst snd].
  set (w1 := (Solver.BoundaryApplier nx ny 0 (fst w),
              Solver.BoundaryApplier nx ny 1 (snd w))).
  set (w2 := Mpi.halo_exchange nx ny Uold w1).
  destruct (halo_exchange_tail nx ny Uold w1 Hnx Hny) as [A0 A1].
  destruct (halo_exchange_tail nx ny Ucur w2 Hnx Hny) as [B0 B1].
  fold w2 in A0, A1.
  split.
  - eapply tail_kept_trans; [| apply update_tail; assumption].
    eapply tail_kept_trans; [| apply TimeStepper_tail; assumption].
    eapply tail_kept_trans; [| exact B0].
    eapply tail_kept_trans; [| exact A0].
    apply BoundaryApplier_tail; assumption.
  - eapply tail_kept_trans; [| apply update_tail; assumption].
    eapply tail_kept_trans; [| apply TimeStepper_tail; assumption].
    eapply tail_kept_trans; [| exact B1].
    eapply tail_kept_trans; [| exact A1].
    apply BoundaryApplier_tail; assumption.
Qed.

(** Whatever lies behind the [2 * gnx * gny] cells of type [int] that
    [malloc] hands out for a block is left alone: after the start-up and any
    number of passes of the time loop, on both ranks and for each of the
    three blocks, every cell from that offset on reads as it did on the
    heap the program started with. *)
Theorem solve_never_writes_past_blocks (nx ny nsteps : Z) (cexp : float -> float)
    (iterations : nat) (heap : TwoRank.world) :
  0 <= nx -> 0 <= ny ->
  let w := TwoRank.solve nx ny nsteps cexp iterations heap in
  let n := block_cells (Solver.gnx nx * Solver.gny ny) in
  (forall buf k, n <= k ->
     rd (get_buf buf (fst w)) k = rd (get_buf buf (fst heap)) k) /\
  (forall buf k, n <= k ->
     rd (get_buf buf (snd w)) k = rd (get_buf buf (snd heap)) k).
Proof.
  intros Hnx Hny w n.
  assert (H : tail_kept n (fst heap) (fst w) /\ tail_kept n (snd heap) (snd w)).
  { subst w. unfold TwoRank.solve.
    induction iterations as [| it IH].
    - apply startup_tail; assumption.
    - simpl. destruct IH as [I0 I1].
      destruct (time_step_tail nx ny nsteps
                  (Nat.iter it (TwoRank.time_step nx ny nsteps)
                     (TwoRank.startup nx ny nsteps cexp heap)) Hnx Hny) as [T0 T1].
      split; eapply tail_kept_trans; eassumption. }
  destruct H as [H0 H1]. split; intros buf k Hk; [apply H0 | apply H1]; exact Hk.
Qed.

(** Two passes on a 4 x 4 grid, four numbered cells behind every block. *)
Lemma solve_never_writes_past_blocks_witness :
  let heap := (fenced 100, fenced 200) in
  let w := TwoRank.solve 4 4 10 exp_4x4 2 heap in
  let n := block_cells (Solver.gnx 4 * Solver.gny 4) in
  (forall buf k, n <= k ->
     rd (get_buf buf (fst w)) k = rd (get_buf buf (fst heap)) k) /\
  (forall buf k, n <= k ->
     rd (get_buf buf (snd w)) k = rd (get_buf buf (snd heap)) k).
Proof.
  apply (solve_never_writes_past_blocks 4 4 10 exp_4x4 2 (fenced 100, fenced 200));
    lia.
Defined.

(** The field of a rank takes [gnx * gny] cells of its block.  For
    [ny >= 2] and blocks of the allocated size, the receive of rank 0 at
    [&buf[ixe][0]] runs over the end of the field: the [ny - 2] cells that
    follow it receive the rows [0..ny-3] of what rank 1 holds at column 2.
    The cells exist because the blocks are sized with [sizeof(double* )]. *)
Theorem halo_exchange_writes_past_field
    (nx ny : Z) (buf : buffer) (s0 s1 : rank_state) :
  0 <= nx -> 2 <= ny ->
  block_cells (Solver.gnx nx * Solver.gny ny) <= Z.of_nat (length (get_buf buf s0)) ->
  block_cells (Solver.gnx nx * Solver.gny ny) <= Z.of_nat (length (get_buf buf s1)) ->
  let w' := Mpi.halo_exchange nx ny buf (s0, s1) in
  let gny := Solver.gny ny in
  forall r, 0 <= r < ny - 2 ->
    rd (get_buf buf (fst w')) (Solver.gnx nx * gny + r)
    = rd (get_buf buf s1) (cell gny 2 r).
Proof.
  intros Hnx Hny Hl0 Hl1 w' gny r Hr.
  pose proof (nxnom_nonneg nx Hnx) as Hnom.
  pose proof (gny_eq ny) as Hgny. pose proof (ixe_eq nx) as Hixe.
  pose proof (ixem_eq nx) as Hixem. pose proof (gnx_eq nx) as Hgnx.
  rewrite block_cells_double in Hl0, Hl1.
  subst w'. unfold Mpi.halo_exchange, Mpi.transfer. cbn [fst snd].
  change (Decomp.gny ny) with (Solver.gny ny).
  change (Decomp.ixem nx 2) with (Solver.ixem nx).
  change (Decomp.ixe nx 2) with (Solver.ixe nx).
  rewrite !get_set_buf.
  set (b0 := get_buf buf s0) in *. set (b1 := get_buf buf s1) in *.
  unfold cell. subst gny. rewrite Hgny, Hgnx, Hixe in *. rewrite Hixem.
  set (n := Solver.nxnom nx) in *.
  assert (Hp : 0 <= n * ny) by (apply Z.mul_nonneg_nonneg; lia).
  assert (E1 : (n + 1) * (ny + 2) = n * ny + 2 * n + ny + 2) by ring.
  assert (E2 : (n + 2) * (ny + 2) = n * ny + 2 * n + 2 * ny + 4) by ring.
  rewrite E1. rewrite E2 in *.
  set (msg0 := Mpi.payload b0 (n * (ny + 2) + 0) ny).
  pose proof (length_payload_le b0 (n * (ny + 2) + 0) ny ltac:(lia)) as Hm0.
  fold msg0 in Hm0.
  set (b1' := Mpi.deliver b1 (0 * (ny + 2) + 0) msg0).
  assert (Hb1' : length b1' = length b1) by apply length_deliver.
  set (msg1 := Mpi.payload b1' (1 * (ny + 2) + 0) ny).
  assert (Hm1 : Z.of_nat (length msg1) = 2 * ny).
  { apply length_payload; lia. }
  rewrite rd_deliver_inside by lia.
  replace (Z.to_nat (n * ny + 2 * n + 2 * ny + 4 + r - (n * ny + 2 * n + ny + 2 + 0)))
    with (Z.to_nat (ny + 2 + r)) by lia.
  subst msg1. rewrite payload_lookup by lia.
  rewrite Z2Nat.id by lia.
  subst b1'. rewrite rd_deliver_outside by lia.
  f_equal. lia.
Qed.

(** A 4 x 4 grid with numbered cells: the second cell behind the field. *)
Lemma halo_exchange_writes_past_field_witness :
  let w' := Mpi.halo_exchange 4 4 Uold (numbered 100, numbered 200) in
  let gny := Solver.gny 4 in
  rd (get_buf Uold (fst w')) (Solver.gnx 4 * gny + 1)
  = rd (get_buf Uold (numbered 200)) (cell gny 2 1).
Proof.
  apply (halo_exchange_writes_past_field 4 4 Uold
           (numbered 100) (numbered 200));
    first [lia | by_evaluation].
Defined.

(** ** The patch of the reduction utility *)

Lemma rdf_wrf_same (b : list float) (k : Z) (v : float) :
  0 <= k < Z.of_nat (length b) -> Patch.rdf (Patch.wrf b k v) k = v.
Proof.
  intros [H0 H1]. unfold Patch.rdf, Patch.wrf.
  destruct (Z.ltb_spec k 0); [lia |].
  apply list_lookup_total_insert_eq. lia.
Qed.

Lemma rdf_wrf_other (b : list float) (k k' : Z) (v : float) :
  k <> k' -> Patch.rdf (Patch.wrf b k v) k' = Patch.rdf b k'.
Proof.
  intros Hne. unfold Patch.rdf, Patch.wrf.
  destruct (Z.ltb_spec k' 0); [reflexivity |].
  destruct (Z.ltb_spec k 0); [reflexivity |].
  apply list_lookup_total_insert_ne. lia.
Qed.

Lemma length_wrf (b : list float) (k : Z) (v : float) :
  length (Patch.wrf b k v) = length b.
Proof.
  unfold Patch.wrf. destruct (k <? 0); [reflexivity | apply length_insert].
Qed.

(** The setup loop of the reduction utility, [for(i=0; i<tnx; i++)], stays
    inside the table of [tnx] entries and leaves in every entry [i] the
    offset [i * tny] of row [i]. *)
Theorem patch_setup_stays_in_table (nxnom nynom : Z) :
  0 <= nxnom ->
  exists tbl,
    Patch.setup_rows nxnom nynom = Some tbl /\
    Z.of_nat (length tbl) = Patch.tnx nxnom /\
    forall i, 0 <= i < Patch.tnx nxnom ->
              tbl !! Z.to_nat i = Some (i * Patch.tny nynom).
Proof.
  intros H.
  assert (Hent : table_entries (Patch.tnx nxnom) = Patch.tnx nxnom).
  { unfold table_entries, Abi.sizeof_ptr. apply Z.div_mul. lia. }
  destruct (setup_rows_prefix (Patch.tnx nxnom) (Patch.tny nynom) (Patch.tnx nxnom))
    as (tbl & Hrun & Hlen & Hget).
  - rewrite Hent. unfold Patch.tnx. lia.
  - exists tbl. split; [exact Hrun |]. split; [| exact Hget].
    rewrite Hlen, Hent. unfold Patch.tnx. lia.
Qed.

(** A patch of 2 x 3 points: a table of four entries. *)
Lemma patch_setup_stays_in_table_witness :
  exists tbl,
    Patch.setup_rows 2 3 = Some tbl /\
    Z.of_nat (length tbl) = Patch.tnx 2 /\
    forall i, 0 <= i < Patch.tnx 2 ->
              tbl !! Z.to_nat i = Some (i * Patch.tny 3).
Proof.
  apply (patch_setup_stays_in_table 2 3). lia.
Defined.

(** One row of the fill loop. *)
Lemma fill_row (tny : Z) (v : float) (i m : Z) (b : list float) :
  0 <= m < tny ->
  (forall j, 0 <= j <= m -> 0 <= cell tny i j < Z.of_nat (length b)) ->
  let b' := for_loop 0 m (fun j b => Patch.wrf b (cell tny i j) v) b in
  length b' = length b /\
  (forall j, 0 <= j <= m -> Patch.rdf b' (cell tny i j) = v) /\
  (forall k, (forall j, 0 <= j <= m -> k <> cell tny i j) ->
             Patch.rdf b' k = Patch.rdf b k).
Proof.
  intros Hm Ha b'.
  assert (H : length b' = length b /\
              (forall j, 0 <= j < m + 1 -> Patch.rdf b' (cell tny i j) = v) /\
              (forall k, (forall j, 0 <= j < m + 1 -> k <> cell tny i j) ->
                         Patch.rdf b' k = Patch.rdf b k)).
  { subst b'.
    apply (for_loop_invariant
             (fun n s => length s = length b /\
                (forall j, 0 <= j < n -> Patch.rdf s (cell tny i j) = v) /\
                (forall k, (forall j, 0 <= j < n -> k <> cell tny i j) ->
                           Patch.rdf s k = Patch.rdf b k))).
    - lia.
    - split; [reflexivity |]. split; [intros; lia | reflexivity].
    - intros j s Hj (Hl & Hin & Hout).
      split; [now rewrite length_wrf |]. split.
      + intros j' Hj'. destruct (Z.eq_dec j' j) as [-> | Hne].
        * apply rdf_wrf_same. rewrite Hl. apply Ha. lia.
        * rewrite rdf_wrf_other by (unfold cell; lia). apply Hin. lia.
      + intros k Hk. rewrite rdf_wrf_other.
        * apply Hout. intros j' Hj'. apply Hk. lia.
        * intros E. apply (Hk j); [lia | now symmetry]. }
  destruct H as (Hl & Hin & Hout).
  split; [exact Hl |]. split.
  - intros j Hj. apply Hin. lia.
  - intros k Hk. apply Hout. intros j Hj. apply Hk. lia.
Qed.

(** After the fill loops every cell of the rows [0..lixe] and columns
    [0..liye] reads [(double)rank], and the block has kept its length. *)
Lemma fill_cells (nxnom nynom rank : Z) (old1d : list float) :
  0 <= nxnom -> 0 <= nynom ->
  Z.of_nat (length old1d) = Patch.tnxtny nxnom nynom ->
  length (Patch.fill nxnom nynom rank old1d) = length old1d /\
  forall i j, 0 <= i < nxnom + 1 + 1 -> 0 <= j <= nynom + 1 ->
    Patch.rdf (Patch.fill nxnom nynom rank old1d) (cell (Patch.tny nynom) i j)
    = CDouble.of_int rank.
Proof.
  intros Hx Hy Hlen.
  set (v := CDouble.of_int rank).
  set (tny := Patch.tny nynom).
  assert (Htny : tny = nynom + 2) by reflexivity.
  assert (Htot : Patch.tnxtny nxnom nynom = (nxnom + 2) * tny) by reflexivity.
  unfold Patch.fill, Patch.lixe, Patch.liye. fold tny v.
  apply (for_loop_invariant
           (fun n s => length s = length old1d /\
              forall i j, 0 <= i < n -> 0 <= j <= nynom + 1 ->
                          Patch.rdf s (cell tny i j) = v)).
  - lia.
  - split; [reflexivity | intros; lia].
  - intros i s Hi (Hl & Hin).
    destruct (fill_row tny v i (nynom + 1) s) as (Hl' & Hrow & Hout).
    + lia.
    + intros j Hj. rewrite Hl. unfold cell. nia.
    + split; [congruence |].
      intros i' j Hi' Hj. destruct (Z.eq_dec i' i) as [-> | Hne].
      * apply Hrow. lia.
      * rewrite Hout; [apply Hin; lia |].
        intros j' Hj' E. apply cell_inj in E; lia.
Qed.

(** The fill loop of lines 85 to 89 writes every one of the [tnx * tny]
    cells of [old1d], ghost cells included: whatever the block held, it
    ends as [tnxtny] copies of [(double)rank]. *)
Theorem patch_fill_covers_block (nxnom nynom rank : Z) (old1d : list float) :
  0 <= nxnom -> 0 <= nynom ->
  Z.of_nat (length old1d) = Patch.tnxtny nxnom nynom ->
  Patch.fill nxnom nynom rank old1d
  = replicate (Z.to_nat (Patch.tnxtny nxnom nynom)) (CDouble.of_int rank).
Proof.
  intros Hx Hy Hlen.
  set (v := CDouble.of_int rank).
  set (tny := Patch.tny nynom).
  assert (Htny : tny = nynom + 2) by reflexivity.
  assert (Htot : Patch.tnxtny nxnom nynom = (nxnom + 2) * tny) by reflexivity.
  destruct (fill_cells nxnom nynom rank old1d Hx Hy Hlen) as [Hl Hcells].
  fold v tny in Hcells.
  apply list_eq_same_length with (n := length old1d).
  - rewrite length_replicate. lia.
  - exact Hl.
  - intros k x y Hk Hx' Hy'.
    apply lookup_replicate in Hy' as [-> _].
    assert (Hk' : 0 <= Z.of_nat k < (nxnom + 2) * tny) by lia.
    specialize (Hcells (Z.of_nat k / tny) (Z.of_nat k mod tny)).
    pose proof (Z.div_mod (Z.of_nat k) tny ltac:(lia)) as Hdm.
    pose proof (Z.mod_pos_bound (Z.of_nat k) tny ltac:(lia)) as Hmb.
    assert (Hq : 0 <= Z.of_nat k / tny < nxnom + 2).
    { split; [apply Z.div_pos; lia | apply Z.div_lt_upper_bound; lia]. }
    unfold cell in Hcells.
    replace (Z.of_nat k / tny * tny + Z.of_nat k mod tny) with (Z.of_nat k)
      in Hcells by lia.
    specialize (Hcells ltac:(lia) ltac:(lia)).
    unfold Patch.rdf in Hcells.
    destruct (Z.ltb_spec (Z.of_nat k) 0); [lia |].
    rewrite Nat2Z.id in Hcells.
    apply list_lookup_total_correct in Hx'. congruence.
Qed.

(** A patch of 2 x 3 points on rank 5, the block holding 0.0 before. *)
Lemma patch_fill_covers_block_witness :
  Patch.fill 2 3 5 (replicate 20 0%float)
  = replicate (Z.to_nat (Patch.tnxtny 2 3)) (CDouble.of_int 5).
Proof.
  apply (patch_fill_covers_block 2 3 5 (replicate 20 0%float));
    first [lia | reflexivity].
Defined.

(** One row of the sum. *)
Lemma sum_row (tny : Z) (v : float) (b : list float) (i m : Z) (s0 : float) :
  0 <= m ->
  (forall j, 1 <= j <= m -> Patch.rdf b (cell tny i j) = v) ->
  for_loop 1 m (fun j sum => (sum + Patch.rdf b (cell tny i j))%float) s0
  = Nat.iter (Z.to_nat m) (fun s => (s + v)%float) s0.
Proof.
  intros Hm Hv.
  assert (H : for_loop 1 m (fun j sum => (sum + Patch.rdf b (cell tny i j))%float) s0
              = Nat.iter (Z.to_nat (m + 1 - 1)) (fun s => (s + v)%float) s0).
  { apply (for_loop_invariant
             (fun n s => s = Nat.iter (Z.to_nat (n - 1)) (fun s => (s + v)%float) s0)).
    - lia.
    - reflexivity.
    - intros j s Hj ->. rewrite Hv by lia.
      replace (Z.to_nat (j + 1 - 1)) with (S (Z.to_nat (j - 1))) by lia.
      reflexivity. }
  rewrite H. f_equal. lia.
Qed.

(** A fold over the lists of a comprehension, list by list. *)
Lemma foldl_bind {A B C : Type} (f : A -> B -> A) (g : C -> list B)
    (l : list C) (a : A) :
  foldl f a (l ≫= g) = foldl (fun a x => foldl f a (g x)) a l.
Proof.
  revert a. induction l as [| x l IH]; intros a; [reflexivity |].
  rewrite bind_cons, foldl_app. apply IH.
Qed.

(** Folds with step functions that agree, agree. *)
Lemma foldl_agree {A B : Type} (f g : A -> B -> A) (l : list B) (a : A) :
  (forall a x, f a x = g a x) -> foldl f a l = foldl g a l.
Proof.
  intros H. revert a. induction l as [| x l IH]; intros a; [reflexivity |].
  simpl. rewrite H. apply IH.
Qed.

(** The two loops of the sum run over [patch_cells], in its order. *)
Lemma local_sum_fold (nxnom nynom : Z) (old1d : list float) :
  Patch.local_sum nxnom nynom old1d
  = foldl (fun sum k => (sum + Patch.rdf old1d k)%float) 0%float
          (patch_cells nxnom nynom).
Proof.
  unfold Patch.local_sum, patch_cells, for_loop,
    Patch.lixm, Patch.liym, Patch.lixe, Patch.liye.
  replace (nxnom + 1 - 1 + 1 - 1) with nxnom by lia.
  replace (nynom + 1 - 1 + 1 - 1) with nynom by lia.
  rewrite foldl_bind. apply foldl_agree. intros a i.
  now rewrite foldl_fmap.
Qed.

(** [patch_cells] holds the cells of the patch proper and no other. *)
Lemma elem_of_patch_cells (nxnom nynom k : Z) :
  k ∈ patch_cells nxnom nynom <->
  exists i j, 1 <= i <= nxnom /\ 1 <= j <= nynom /\
              k = cell (Patch.tny nynom) i j.
Proof.
  unfold patch_cells. rewrite list_elem_of_bind. split.
  - intros (i & Hk & Hi). apply list_elem_of_fmap in Hk as (j & -> & Hj).
    apply elem_of_seqZ in Hi, Hj. exists i, j. repeat split; lia.
  - intros (i & j & Hi & Hj & ->). exists i. split.
    + apply list_elem_of_fmap. exists j. split; [reflexivity |].
      apply elem_of_seqZ. lia.
    + apply elem_of_seqZ. lia.
Qed.

(** [patch_cells] holds no cell twice. *)
Lemma NoDup_patch_cells (nxnom nynom : Z) :
  0 <= nynom -> NoDup (patch_cells nxnom nynom).
Proof.
  intros Hy. unfold patch_cells. apply NoDup_bind.
  - intros i1 i2 k _ _ H1 H2.
    apply list_elem_of_fmap in H1 as (j1 & -> & Hj1).
    apply list_elem_of_fmap in H2 as (j2 & E & Hj2).
    apply elem_of_seqZ in Hj1, Hj2.
    apply cell_inj in E; [lia | |]; unfold Patch.tny; lia.
  - intros i _. apply NoDup_fmap_2_strong; [| apply NoDup_seqZ].
    intros j1 j2 Hj1 Hj2 E. apply elem_of_seqZ in Hj1, Hj2.
    apply cell_inj in E; [lia | |]; unfold Patch.tny; lia.
  - apply NoDup_seqZ.
Qed.

(** On a filled block the sum is [(double)rank] added [nxnom * nynom]
    times. *)
Lemma local_sum_of_fill (nxnom nynom rank : Z) (old1d : list float) :
  0 <= nxnom -> 0 <= nynom ->
  Z.of_nat (length old1d) = Patch.tnxtny nxnom nynom ->
  Patch.local_sum nxnom nynom (Patch.fill nxnom nynom rank old1d)
  = Nat.iter (Z.to_nat (nxnom * nynom))
             (fun s => (s + CDouble.of_int rank)%float) 0%float.
Proof.
  intros Hx Hy Hlen.
  destruct (fill_cells nxnom nynom rank old1d Hx Hy Hlen) as [_ Hb].
  set (v := CDouble.of_int rank) in *.
  set (b := Patch.fill nxnom nynom rank old1d) in *.
  unfold Patch.local_sum, Patch.lixm, Patch.liym, Patch.lixe, Patch.liye.
  replace (nxnom + 1 - 1) with nxnom by lia.
  replace (nynom + 1 - 1) with nynom by lia.
  assert (H : for_loop 1 nxnom
                (fun i => for_loop 1 nynom (fun j sum =>
                   (sum + Patch.rdf b (cell (Patch.tny nynom) i j))%float)) 0%float
              = Nat.iter (Z.to_nat ((nxnom + 1 - 1) * nynom))
                         (fun s => (s + v)%float) 0%float).
  { apply (for_loop_invariant
             (fun n s => s = Nat.iter (Z.to_nat ((n - 1) * nynom))
                                      (fun s => (s + v)%float) 0%float)).
    - lia.
    - reflexivity.
    - intros i s Hi ->.
      rewrite (sum_row _ v) by (try assumption; intros; apply Hb; lia).
      rewrite <- Nat.iter_add. f_equal. nia. }
  rewrite H. f_equal. f_equal. lia.
Qed.

(** The local sum of lines 104 to 109 is the left-to-right sum, from 0.0,
    of the cells listed in [patch_cells]; that list holds every cell
    [(i, j)] of the patch proper, [i] in [1..nxnom] and [j] in [1..nynom],
    once, and no ghost cell.  So whatever the ghost cells hold they do not
    enter the sum, and on the block filled by lines 85 to 89 the sum is
    [(double)rank] added [nxnom * nynom] times to 0.0. *)
Theorem patch_local_sum_counts_interior (nxnom nynom : Z) :
  0 <= nxnom -> 0 <= nynom ->
  let cells := patch_cells nxnom nynom in
  NoDup cells /\
  (forall k, k ∈ cells <->
     exists i j, 1 <= i <= nxnom /\ 1 <= j <= nynom /\
                 k = cell (Patch.tny nynom) i j) /\
  (forall old1d,
     Patch.local_sum nxnom nynom old1d
     = foldl (fun sum k => (sum + Patch.rdf old1d k)%float) 0%float cells) /\
  (forall rank old1d,
     Z.of_nat (length old1d) = Patch.tnxtny nxnom nynom ->
     Patch.local_sum nxnom nynom (Patch.fill nxnom nynom rank old1d)
     = Nat.iter (Z.to_nat (nxnom * nynom))
                (fun s => (s + CDouble.of_int rank)%float) 0%float).
Proof.
  intros Hx Hy cells. split; [| split; [| split]].
  - apply NoDup_patch_cells. exact Hy.
  - apply elem_of_patch_cells.
  - apply local_sum_fold.
  - intros rank old1d Hlen. apply local_sum_of_fill; assumption.
Qed.

(** A patch of 2 x 3 points: six cells of a block of 4 x 5. *)
Lemma patch_local_sum_counts_interior_witness :
  let cells := patch_cells 2 3 in
  NoDup cells /\
  (forall k, k ∈ cells <->
     exists i j, 1 <= i <= 2 /\ 1 <= j <= 3 /\ k = cell (Patch.tny 3) i j) /\
  (forall old1d,
     Patch.local_sum 2 3 old1d
     = foldl (fun sum k => (sum + Patch.rdf old1d k)%float) 0%float cells) /\
  (forall rank old1d,
     Z.of_nat (length old1d) = Patch.tnxtny 2 3 ->
     Patch.local_sum 2 3 (Patch.fill 2 3 rank old1d)
     = Nat.iter (Z.to_nat (2 * 3))
                (fun s => (s + CDouble.of_int rank)%float) 0%float).
Proof.
  apply (patch_local_sum_counts_interior 2 3); lia.
Defined.

(** For non-negative [nx], [ny] and [nprocs] the two processor counts of
    lines 30 and 31 are non-negative and add up to [nprocs] or to
    [nprocs - 1]. *)
Theorem reduce_processor_counts_sum (nx ny nprocs a b : Z) :
  0 <= nx -> 0 <= ny -> 0 <= nprocs ->
  Reduce.nxprocs nx ny nprocs = Some a ->
  Reduce.nyprocs nx ny nprocs = Some b ->
  0 <= a /\ 0 <= b /\ nprocs - 1 <= a + b <= nprocs.
Proof.
  intros Hx Hy Hp. unfold Reduce.nxprocs, Reduce.nyprocs, Reduce.checked, CInt.div.
  destruct (CInt.in_range (nprocs * nx)); [| discriminate].
  destruct (CInt.in_range (nprocs * ny)); [| discriminate].
  destruct (CInt.in_range (nx + ny)); [| discriminate].
  cbn [mbind option_bind].
  destruct (Z.eqb_spec (nx + ny) 0) as [| Hs]; [discriminate |].
  destruct (_ && _); [discriminate |].
  destruct (_ && _); [discriminate |].
  intros [= <-] [= <-].
  rewrite !Z.quot_div_nonneg by nia.
  assert (Hpos : 0 < nx + ny) by lia.
  pose proof (Z.div_mod (nprocs * nx) (nx + ny) ltac:(lia)) as D1.
  pose proof (Z.div_mod (nprocs * ny) (nx + ny) ltac:(lia)) as D2.
  pose proof (Z.mod_pos_bound (nprocs * nx) (nx + ny) Hpos) as M1.
  pose proof (Z.mod_pos_bound (nprocs * ny) (nx + ny) Hpos) as M2.
  assert (0 <= nprocs * nx / (nx + ny)) by (apply Z.div_pos; nia).
  assert (0 <= nprocs * ny / (nx + ny)) by (apply Z.div_pos; nia).
  set (q1 := nprocs * nx / (nx + ny)) in *.
  set (q2 := nprocs * ny / (nx + ny)) in *.
  assert (E : nprocs * (nx + ny)
              = (nx + ny) * (q1 + q2)
                + ((nprocs * nx) mod (nx + ny) + (nprocs * ny) mod (nx + ny))) by lia.
  repeat split; try assumption; nia.
Qed.

(** Five by four points on three processes: one process per axis. *)
Lemma reduce_processor_counts_sum_witness :
  0 <= 1 /\ 0 <= 1 /\ 3 - 1 <= 1 + 1 <= 3.
Proof.
  apply (reduce_processor_counts_sum 5 4 3 1 1); first [lia | reflexivity].
Defined.
